(** * The plugin-list sorter (rearrange-plugins), embedded in Rocq

    The sorter is the [Sorter] class of the extension bundle: it watches the
    page for the plugin menu, restores a saved row order, adds a grip to each
    row and lets the user drag rows around, saving the new order on release.

    The embedding is shallow.  The page is a record that is passed from
    handler to handler; element objects live in a heap indexed by their
    identity, so that the list, the drag session and the handlers all refer
    to the same row the way the JavaScript references do.  Numbers are
    rationals, and the sums and differences the code makes are rounded to
    binary64 as the code rounds them.  What the host decides (the boxes it
    reports, the scrollable range and the offset it arrives at when it lays
    the list out again) is an argument of the handler.  A handler that can
    throw returns a [result].  Strings are strings of characters with codes
    below 256.

    The tag creator of the same bundle ([XmlTagCreator]) is embedded after
    the sorter: its sanitiser, its list of recent tags and its toolbar
    button. *)

From Stdlib Require Import QArith Ascii.
From stdpp Require Import base option list strings gmap.

Set Warnings "-register-all".

Open Scope Q_scope.
Open Scope nat_scope.
Open Scope stdpp_scope.

(** * JavaScript values and errors *)

Inductive error := SyntaxError | TypeError.

Inductive result (A : Type) :=
| Ok (a : A)
| Raise (e : error).
Arguments Ok {A} a.
Arguments Raise {A} e.

#[global] Instance result_ret : MRet result := λ A a, Ok a.
#[global] Instance result_bind : MBind result := λ A B k r,
  match r with
  | Ok a => k a
  | Raise e => Raise e
  end.

(** ** Numbers

    A number of the code is a binary64, and so is a number that the host
    reports; the model holds its value as a rational.  [binary64 q] is the binary64 nearest to [q], a tie going to
    the one with the even significand, and [None] when [q] is beyond the
    largest binary64 (the code then has an infinity). *)

(** [n / d] rounded to the nearest integer, a tie going to the even one,
    for [0 <= n] and [0 < d]. *)
Definition round_half_even (n d : Z) : Z :=
  let q := (n / d)%Z in
  match (2 * (n mod d) ?= d)%Z with
  | Lt => q
  | Gt => (q + 1)%Z
  | Eq => if Z.even q then q else (q + 1)%Z
  end.

(** [2^e <= n / d], for [0 < n] and [0 < d]. *)
Definition at_least_pow2 (n d e : Z) : bool :=
  if (0 <=? e)%Z then (d * 2 ^ e <=? n)%Z else (d <=? n * 2 ^ (- e))%Z.

(** The integer part of the binary logarithm of [n / d]. *)
Definition exponent (n d : Z) : Z :=
  let e := (Z.log2 n - Z.log2 d)%Z in
  if at_least_pow2 n d e then e else (e - 1)%Z.

(** The binary64 nearest to [n / d], for [0 < n] and [0 < d], as the
    multiple [m * 2^k] of its unit in the last place: 53 bits of
    significand, and no unit below [2^-1074]. *)
Definition nearest (n d : Z) : option (Z * Z) :=
  let k := Z.max (exponent n d - 52) (-1074) in
  let m := if (0 <=? k)%Z then round_half_even n (d * 2 ^ k)
           else round_half_even (n * 2 ^ (- k)) d in
  if (2 ^ 1024 <=? (if (0 <=? k)%Z then m * 2 ^ k else 0))%Z then None
  else Some (m, k).

Definition scaled (m k : Z) : Q :=
  Qred (if (0 <=? k)%Z then inject_Z (m * 2 ^ k)
        else Qmake m (Z.to_pos (2 ^ (- k)))).

Definition binary64 (q : Q) : option Q :=
  match (Qnum q ?= 0)%Z with
  | Eq => Some 0%Q
  | Gt => match nearest (Qnum q) (Zpos (Qden q)) with
          | Some (m, k) => Some (scaled m k)
          | None => None
          end
  | Lt => match nearest (- Qnum q) (Zpos (Qden q)) with
          | Some (m, k) => Some (scaled (- m) k)
          | None => None
          end
  end.

(** The result of an operation of the code whose exact value is [q].  No
    coordinate of a page is beyond the binary64 range; there [fl] leaves
    its argument as it is. *)
Definition fl (q : Q) : Q :=
  match binary64 q with
  | Some r => r
  | None => q
  end.

(** The values [JSON.parse] can produce.  An object lists its members in
    text order; a repeated key takes its last value. *)
Inductive json :=
| JNull
| JBool (b : bool)
| JNum (q : Q)
| JStr (s : string)
| JArr (items : list json)
| JObj (members : list (string * json)).

Definition number (n : nat) : json := JNum (inject_Z (Z.of_nat n)).

Fixpoint own_property (k : string) (members : list (string * json)) : option json :=
  match members with
  | [] => None
  | (k', v) :: rest =>
      match own_property k rest with
      | Some w => Some w
      | None => if decide (k = k') then Some v else None
      end
  end.

(** [v.length]; [None] is [undefined]. *)
Definition get_length (v : json) : result (option json) :=
  match v with
  | JNull => Raise TypeError
  | JBool _ | JNum _ => Ok None
  | JStr s => Ok (Some (number (String.length s)))
  | JArr items => Ok (Some (number (length items)))
  | JObj members => Ok (own_property "length" members)
  end.

(** [ToBoolean].  A number of a JSON text is the binary64 nearest to what
    the text denotes, or an infinity: it is falsy when that is zero. *)
Definition truthy (v : option json) : bool :=
  match v with
  | None | Some JNull => false
  | Some (JBool b) => b
  | Some (JNum q) =>
      match binary64 q with
      | Some r => negb (Qeq_bool r 0)
      | None => true
      end
  | Some (JStr s) => bool_decide (s ≠ "")
  | Some (JArr _) | Some (JObj _) => true
  end.

(** The items [v.forEach(f)] hands to [f], one after the other.  Only an
    array has a [forEach] to call. *)
Definition forEach_items (v : json) : result (list json) :=
  match v with
  | JArr items => Ok items
  | _ => Raise TypeError
  end.

(** ** Strings *)

(** The white space of [String.prototype.trim] among the characters with
    codes below 256: tab, line feed, vertical tab, form feed, carriage
    return, space and no-break space. *)
Definition white_space (a : ascii) : bool :=
  bool_decide (nat_of_ascii a ∈ [9; 10; 11; 12; 13; 32; 160]).

Fixpoint trimStart (s : string) : string :=
  match s with
  | String a s' => if white_space a then trimStart s' else s
  | EmptyString => EmptyString
  end.

Definition trim (s : string) : string :=
  String.rev (trimStart (String.rev (trimStart s))).

(** * Configuration constants *)

Module CONFIG.
Definition STORAGE_KEY : string := "tm_plugin_custom_order".
Definition edgeDistance : Q := 40%Q.
End CONFIG.

(** * localStorage and the storage helper *)

(** A stored string, up to what [JSON.parse] makes of it: the empty string,
    a text that is not JSON, or a JSON text with the value it denotes. *)
Inductive text :=
| Blank
| Garbled
| Doc (v : json).

Definition JSON_parse (t : text) : result json :=
  match t with
  | Blank | Garbled => Raise SyntaxError
  | Doc v => Ok v
  end.

(** [JSON.stringify] of an array of strings: a text denoting that array. *)
Definition JSON_stringify (o : list string) : text := Doc (JArr (JStr <$> o)).

(** [s || '[]'] for what [getItem] returns: [null] and the empty string
    are falsy. *)
Definition or_empty_array (s : option text) : text :=
  match s with
  | None | Some Blank => Doc (JArr [])
  | Some t => t
  end.

Module Store.
(** [JSON.parse(localStorage.getItem(this.key) || '[]')] *)
Definition get (key : string) (localStorage : gmap string text) : result json :=
  JSON_parse (or_empty_array (localStorage !! key)).

(** [localStorage.setItem(this.key, JSON.stringify(o))] *)
Definition save (key : string) (o : list string)
    (localStorage : gmap string text) : gmap string text :=
  <[key := JSON_stringify o]> localStorage.
End Store.

(** * Elements *)

(** An inline style value as the code assigns it; the host keeps a length
    to its own precision. *)
Inductive css :=
| unset
| px (q : Q)
| keyword (s : string)
| integer (z : Z).

(** The inline style properties the sorter touches. *)
Record style := Style {
  width : css;
  position : css;
  zIndex : css;
  left : css;
  top : css;
  pointerEvents : css;
}.

Definition no_style : style := Style unset unset unset unset unset unset.

(** A [role="menuitem"] row. *)
Record row := Row {
  truncate : option string;  (* textContent of its first .truncate element *)
  wrap : bool;               (* it has an element matching SELECTORS.wrap *)
  hasHandle : bool;          (* dataset.hasHandle *)
  handles : nat;             (* handle elements in its wrapper *)
  inline : style;            (* row.style *)
  dragging : bool;           (* classList has CLASSES.dragging *)
}.

Inductive element :=
| Item (r : row)
| Placeholder (height : Q).

Record DOMRect := Rect {
  rect_left : Q;
  rect_top : Q;
  rect_width : Q;
  rect_height : Q;
}.

(** [bottom] of the box of an element, whose height is not negative: the
    host computes it from [top] and [height]. *)
Definition rect_bottom (r : DOMRect) : Q := fl (rect_top r + rect_height r).

(** [this.drag] during a drag; the list is the one list of the page. *)
Record session := Session {
  drag_row : nat;
  drag_ph : nat;
  offX : Q;
  offY : Q;
  edge : Q;
}.

(** * The page *)

Record page := Page {
  localStorage : gmap string text;
  heap : gmap nat element;     (* element objects by identity *)
  children : list nat;         (* the list's elements in document order *)
  sortAttach : bool;           (* list.dataset.sortAttach *)
  scrollTop : Q;               (* list.scrollTop *)
  scrollMax : Q;               (* scrollHeight - clientHeight of the list *)
  drag : option session;       (* this.drag, None for the empty object *)
  onpointermove : bool;        (* document.onpointermove is set *)
  onpointerup : bool;          (* document.onpointerup is set *)
  next : nat;                  (* identity of the next created element *)
}.

Definition with_localStorage (v : gmap string text) (p : page) : page :=
  Page v (heap p) (children p) (sortAttach p) (scrollTop p) (scrollMax p)
       (drag p) (onpointermove p) (onpointerup p) (next p).
Definition with_heap (v : gmap nat element) (p : page) : page :=
  Page (localStorage p) v (children p) (sortAttach p) (scrollTop p) (scrollMax p)
       (drag p) (onpointermove p) (onpointerup p) (next p).
Definition with_children (v : list nat) (p : page) : page :=
  Page (localStorage p) (heap p) v (sortAttach p) (scrollTop p) (scrollMax p)
       (drag p) (onpointermove p) (onpointerup p) (next p).
Definition with_sortAttach (v : bool) (p : page) : page :=
  Page (localStorage p) (heap p) (children p) v (scrollTop p) (scrollMax p)
       (drag p) (onpointermove p) (onpointerup p) (next p).
Definition with_scrollTop (v : Q) (p : page) : page :=
  Page (localStorage p) (heap p) (children p) (sortAttach p) v (scrollMax p)
       (drag p) (onpointermove p) (onpointerup p) (next p).
Definition with_scroll (t m : Q) (p : page) : page :=
  Page (localStorage p) (heap p) (children p) (sortAttach p) t m
       (drag p) (onpointermove p) (onpointerup p) (next p).
Definition with_drag (v : option session) (p : page) : page :=
  Page (localStorage p) (heap p) (children p) (sortAttach p) (scrollTop p) (scrollMax p)
       v (onpointermove p) (onpointerup p) (next p).
Definition with_handlers (m u : bool) (p : page) : page :=
  Page (localStorage p) (heap p) (children p) (sortAttach p) (scrollTop p) (scrollMax p)
       (drag p) m u (next p).
Definition with_next (v : nat) (p : page) : page :=
  Page (localStorage p) (heap p) (children p) (sortAttach p) (scrollTop p) (scrollMax p)
       (drag p) (onpointermove p) (onpointerup p) v.

(** ** DOM queries and moves *)

Definition row_at (p : page) (i : nat) : option row :=
  match heap p !! i with
  | Some (Item r) => Some r
  | _ => None
  end.

Definition is_row (p : page) (i : nat) : bool :=
  bool_decide (is_Some (row_at p i)).

Definition is_placeholder (p : page) (i : nat) : bool :=
  match heap p !! i with
  | Some (Placeholder _) => true
  | _ => false
  end.

(** [list.querySelectorAll(SELECTORS.row)] *)
Definition rows (p : page) : list nat :=
  filter (λ i, is_row p i) (children p).

(** [r.querySelector('.truncate')?.textContent.trim()]; [None] is
    [undefined]. *)
Definition name_of (r : row) : option string := trim <$> truncate r.

Definition name (p : page) (i : nat) : option string :=
  row_at p i ≫= name_of.

(** An element sits at one place of the tree: inserting it takes it away
    from where it was. *)
Definition detach (el : nat) (ch : list nat) : list nat :=
  filter (λ i, i ≠ el) ch.

Definition appendChild (el : nat) (ch : list nat) : list nat :=
  detach el ch ++ [el].

Fixpoint insert_before (target el : nat) (ch : list nat) : list nat :=
  match ch with
  | [] => []
  | x :: rest =>
      if decide (x = target) then el :: x :: rest
      else x :: insert_before target el rest
  end.

Fixpoint insert_after (target el : nat) (ch : list nat) : list nat :=
  match ch with
  | [] => []
  | x :: rest =>
      if decide (x = target) then x :: el :: rest
      else x :: insert_after target el rest
  end.

(** [target.before(el)] and [target.after(el)]: nothing happens when the
    target has no parent. *)
Definition before (target el : nat) (ch : list nat) : list nat :=
  if decide (target ∈ ch ∧ target ≠ el)
  then insert_before target el (detach el ch) else ch.

Definition after (target el : nat) (ch : list nat) : list nat :=
  if decide (target ∈ ch ∧ target ≠ el)
  then insert_after target el (detach el ch) else ch.

(** [old.replaceWith(new)]: nothing happens when [old] has no parent. *)
Definition replaceWith (old new : nat) (ch : list nat) : list nat :=
  if decide (old ∈ ch ∧ old ≠ new)
  then (λ i, if decide (i = old) then new else i) <$> detach new ch else ch.

Definition update_row (i : nat) (f : row → row) (p : page) : page :=
  match row_at p i with
  | Some r => with_heap (<[i := Item (f r)]> (heap p)) p
  | None => p
  end.

(** Assigning [list.scrollTop]: the host scrolls to the position assigned,
    kept within the scrollable range, which is the range of the list as it
    is laid out when the assignment is made. *)
Definition clamp (lo hi v : Q) : Q :=
  if Qle_bool v lo then lo else if Qle_bool hi v then hi else v.

Definition set_scrollTop (v : Q) (p : page) : page :=
  with_scrollTop (clamp 0 (scrollMax p) v) p.

Definition Qlt_bool (x y : Q) : bool := negb (Qle_bool y x).

Record PointerEvent := Pointer {
  clientX : Q;
  clientY : Q;
}.

(** What the host answers while one handler runs: the box of the list and
    the box of each element, as [getBoundingClientRect] reports them, and
    the scroll offset and the scrollable range it arrives at when it lays
    the list out again after the placeholder has been moved, given the
    offset and the range before.  The placeholder does not have the box of
    a row, and the host may keep what is in view in place, so both may
    change. *)
Record layout := Layout {
  list_rect : DOMRect;
  rect_of : nat → DOMRect;
  reflow : Q → Q → Q * Q;
}.

Definition settle (v : layout) (p : page) : page :=
  with_scroll (reflow v (scrollTop p) (scrollMax p)).1
              (reflow v (scrollTop p) (scrollMax p)).2 p.

(** * The sorter *)

Module Sorter.

(** The map of [#applySaved]: [if(n) map.set(n,r)] for each row, so a
    truthy name is mapped to the last row that carries it. *)
Definition remember (p : page) (m : gmap string nat) (r : nat) : gmap string nat :=
  match name p r with
  | Some n => if bool_decide (n ≠ "") then <[n := r]> m else m
  | None => m
  end.

Definition name_map (p : page) : gmap string nat :=
  foldl (remember p) ∅ (rows p).

(** The body of [saved.forEach(n => ...)]. *)
Definition restore_one (map : gmap string nat) (ch : list nat) (n : json) : list nat :=
  match n with
  | JStr s =>
      match map !! s with
      | Some el => appendChild el ch
      | None => ch
      end
  | _ => ch
  end.

Definition applySaved (p : page) : result page :=
  saved ← Store.get CONFIG.STORAGE_KEY (localStorage p);
  len ← get_length saved;
  if negb (truthy len) then Ok p else
  let map := name_map p in
  items ← forEach_items saved;
  Ok (with_children (foldl (restore_one map) (children p) items) p).

(** [#save] *)
Definition order (p : page) : list string :=
  filter (λ n, n ≠ "") (omap (name p) (rows p)).

Definition save (p : page) : page :=
  with_localStorage (Store.save CONFIG.STORAGE_KEY (order p) (localStorage p)) p.

(** [#grip]: the handle carries an svg only, so the text of the row read
    through [trim] stays what it was. *)
Definition add_handle (r : row) : row :=
  Row (truncate r) (wrap r) true
      (if wrap r then S (handles r) else handles r)
      (inline r) (dragging r).

Definition grip (i : nat) (p : page) : page :=
  match row_at p i with
  | Some r => if hasHandle r then p else update_row i add_handle p
  | None => p
  end.

(** [#init]: the page it leaves and the error it throws, if any. *)
Definition init (p : page) : page * option error :=
  let p1 := with_sortAttach true p in
  match applySaved p1 with
  | Raise e => (p1, Some e)
  | Ok p2 => (foldl (λ q r, grip r q) p2 (rows p2), None)
  end.

(** The callback of [#watch] for an added node in which the list is
    found. *)
Definition watch (p : page) : page * option error :=
  if sortAttach p then (p, None) else init p.

(** [#down], with the box [rect] that the row reports. *)
Definition pick_up (rect : DOMRect) (r : row) : row :=
  Row (truncate r) (wrap r) (hasHandle r) (handles r)
      (Style (px (rect_width rect)) (keyword "fixed") (integer 999)
             (px (rect_left rect)) (px (rect_top rect)) (keyword "none"))
      true.

Definition down (e : PointerEvent) (rect : DOMRect) (r : nat) (p : page) : page :=
  let ph := next p in
  let p1 := with_next (S ph)
              (with_heap (<[ph := Placeholder (rect_height rect)]> (heap p)) p) in
  let p2 := with_children (before r ph (children p1)) p1 in
  let p3 := update_row r (pick_up rect) p2 in
  let d := Session r ph (fl (clientX e - rect_left rect))
                   (fl (clientY e - rect_top rect)) CONFIG.edgeDistance in
  with_handlers true true (with_drag (Some d) p3).

(** [#move], with the boxes [v] that the list and the rows report. *)
Definition follow (e : PointerEvent) (d : session) (r : row) : row :=
  Row (truncate r) (wrap r) (hasHandle r) (handles r)
      (Style (width (inline r)) (position (inline r)) (zIndex (inline r))
             (px (fl (clientX e - offX d))) (px (fl (clientY e - offY d)))
             (pointerEvents (inline r)))
      (dragging r).

Definition autoscroll (e : PointerEvent) (d : session) (r : DOMRect) (p : page) : page :=
  if Qlt_bool (clientY e) (fl (rect_top r + edge d)) then
    set_scrollTop (fl (scrollTop p - edge d)) p
  else if Qlt_bool (fl (rect_bottom r - edge d)) (clientY e) then
    set_scrollTop (fl (scrollTop p + edge d)) p
  else p.

Definition candidates (d : session) (p : page) : list nat :=
  filter (λ i, i ≠ drag_row d) (rows p).

Definition contains (e : PointerEvent) (ir : DOMRect) : bool :=
  Qlt_bool (rect_top ir) (clientY e) && Qlt_bool (clientY e) (rect_bottom ir).

Definition upper_half (e : PointerEvent) (ir : DOMRect) : bool :=
  Qlt_bool (clientY e) (fl (rect_top ir + fl (rect_height ir / 2))).

Definition target (e : PointerEvent) (v : layout) (d : session) (p : page) : option nat :=
  find (λ item, contains e (rect_of v item)) (candidates d p).

(** The placeholder is moved when a row is found, and only then is the
    list laid out again. *)
Definition reposition (e : PointerEvent) (v : layout) (d : session) (p : page) : page :=
  match target e v d p with
  | Some item =>
      settle v
        (if upper_half e (rect_of v item)
         then with_children (before item (drag_ph d) (children p)) p
         else with_children (after item (drag_ph d) (children p)) p)
  | None => p
  end.

Definition move (e : PointerEvent) (v : layout) (p : page) : result page :=
  match drag p with
  | None => Raise TypeError
  | Some d =>
      let p1 := update_row (drag_row d) (follow e d) p in
      let p2 := autoscroll e d (list_rect v) p1 in
      Ok (reposition e v d p2)
  end.

(** [#up] *)
Definition put_down (r : row) : row :=
  Row (truncate r) (wrap r) (hasHandle r) (handles r)
      (Style unset unset (zIndex (inline r)) unset unset unset)
      false.

Definition up (p : page) : result page :=
  match drag p with
  | None => Raise TypeError
  | Some d =>
      let p1 := with_children (replaceWith (drag_ph d) (drag_row d) (children p)) p in
      let p2 := update_row (drag_row d) put_down p1 in
      let p3 := save p2 in
      Ok (with_drag None (with_handlers false false p3))
  end.

End Sorter.

(** * Vocabulary of the properties *)

(** The row a saved entry stands for: only a string can be a key of the
    name map. *)
Definition pick (map : gmap string nat) (n : json) : option nat :=
  match n with
  | JStr s => map !! s
  | _ => None
  end.

(** Display names identify rows: no two rows of the list share a name. *)
Definition unique_names (p : page) : Prop :=
  ∀ i j n, i ∈ rows p → j ∈ rows p →
    name p i = Some n → name p j = Some n → n ≠ "" → i = j.

(** The list as the user reads it: the name of each row, top to bottom. *)
Definition names (p : page) : list (option string) := name p <$> rows p.

(** A row name that the saved order [S] mentions. *)
Definition saved_name (S : list string) (o : option string) : bool :=
  match o with
  | Some s => bool_decide (s ≠ "" ∧ s ∈ S)
  | None => false
  end.

(** A saved name that some row of the list carries. *)
Definition current_name (p : page) (s : string) : Prop :=
  s ≠ "" ∧ Some s ∈ names p.

#[global] Instance current_name_dec p s : Decision (current_name p s).
Proof. unfold current_name. apply _. Defined.

(** A freshly rendered row with the host's markup, and a page holding a
    list of such rows under a given store. *)
Definition fresh_row (label : string) : element :=
  Item (Row (Some label) true false 0 no_style false).

Definition rendered (store : gmap string text) (labels : list string) : page :=
  Page store
       (list_to_map (zip (seq 0 (length labels)) (fresh_row <$> labels)))
       (seq 0 (length labels)) false 0 0 None false false (length labels).

(** What [#grip] makes of a row, whether or not it was gripped before. *)
Definition grip_once (r : row) : row :=
  if hasHandle r then r else Sorter.add_handle r.

Definition gripped (p : page) (l : list nat) : page :=
  foldl (λ q r, Sorter.grip r q) p l.

(** The placeholder elements of the list. *)
Definition placeholders (p : page) : list nat :=
  filter (λ i, is_placeholder p i) (children p).

(** A run of move events, each with the layout the host reports for it. *)
Fixpoint moves (evs : list (PointerEvent * layout)) (p : page) : result page :=
  match evs with
  | [] => Ok p
  | (e, v) :: rest => p' ← Sorter.move e v p; moves rest p'
  end.

(** Where a move event leaves the elements of the list. *)
Definition placed (e : PointerEvent) (v : layout) (d : session) (p : page) : list nat :=
  match Sorter.target e v d p with
  | Some item =>
      if Sorter.upper_half e (rect_of v item)
      then before item (drag_ph d) (children p)
      else after item (drag_ph d) (children p)
  | None => children p
  end.

(** A drag is under way: the session is recorded and its placeholder is
    the one placeholder of the list. *)
Definition in_session (d : session) (p : page) : Prop :=
  drag p = Some d ∧ is_placeholder p (drag_ph d) = true
  ∧ placeholders p = [drag_ph d].

(** The page a handler leaves when it returns. *)
Definition after_ok (r : result page) : option page :=
  match r with
  | Ok p => Some p
  | Raise _ => None
  end.

(** A row without the content wrapper. *)
Definition bare_row (label : string) : element :=
  Item (Row (Some label) false false 0 no_style false).

Definition bare_page : page :=
  Page ∅ {[ 0 := bare_row "A" ]} [0] false 0 0 None false false 1.

(** A value whose [length] is read without error and is falsy. *)
Definition lengthless (v : json) : bool :=
  match get_length v with
  | Ok len => negb (truthy len)
  | Raise _ => false
  end.

(** ** Sample pages *)

Definition page_XA : page :=
  rendered (Store.save CONFIG.STORAGE_KEY ["X"; "A"] ∅) ["A"; "B"].

Definition corrupt_page : page :=
  rendered {[ CONFIG.STORAGE_KEY := Garbled ]} ["A"; "B"].

Definition row_box (i : nat) : DOMRect :=
  Rect 0 (36 * inject_Z (Z.of_nat i)) 200 36.

Definition grab : PointerEvent := Pointer 5 5.

(** A list of two rows, 72 pixels high, scrolled to offset 100 of 500,
    with the first row picked up. *)
Definition short_list : page :=
  let q := Sorter.down grab (row_box 0) 0 (rendered ∅ ["A"; "B"]) in
  Page (localStorage q) (heap q) (children q) true 100 500 (drag q) true true (next q).

(** A host that arrives at the offset and the range it had. *)
Definition still (t m : Q) : Q * Q := (t, m).

Definition short_view : layout := Layout (Rect 0 0 200 72) row_box still.

Definition three_rows : page := (Sorter.watch (rendered ∅ ["A"; "B"; "C"])).1.

Definition three_view : layout := Layout (Rect 0 0 200 300) row_box still.

Definition page_CAB : page :=
  rendered (Store.save CONFIG.STORAGE_KEY ["C"; "A"; "B"] ∅) ["A"; "B"; "C"].

(** Two rows whose texts trim to "A" and to the empty string. *)
Definition page_A_blank : page := rendered ∅ [" A "; "  "].

Definition page_BA : page := rendered ∅ ["B"; "A"].

Definition two_rows : page := rendered ∅ ["A"; "B"].

(** Row A of [three_rows] picked up, and the session that records it. *)
Definition dragging_A : page := Sorter.down grab (row_box 0) 0 three_rows.

Definition session_A : session := Session 0 3 5 5 CONFIG.edgeDistance.

(** A host that, when the placeholder is moved, finds the list 8 pixels
    longer and keeps what is in view in place, 4 pixels further down. *)
Definition anchored_view : layout :=
  Layout (Rect 0 0 200 300) row_box (λ t m, (t + 4, m + 8)%Q).



(** A second press, on row B, while row A of [three_rows] is held. *)
Definition pressed_twice : page :=
  Sorter.down (Pointer 5 41) (row_box 1) 1 dragging_A.

(** The character with code 160, the no-break space. *)
Definition nbsp : ascii := ascii_of_nat 160.

(** ** Whole drags and names that count *)

(** A whole drag: pointer-down on row [r], a run of moves, pointer-up. *)
Definition drag_and_drop (e : PointerEvent) (rect : DOMRect) (r : nat)
    (evs : list (PointerEvent * layout)) (p : page) : result page :=
  p' ← moves evs (Sorter.down e rect r p); Sorter.up p'.

(** A name that counts: present and not empty. *)
Definition truthy_name (o : option string) : bool :=
  match o with
  | Some s => bool_decide (s ≠ "")
  | None => false
  end.

(** The value is an array. *)
Definition is_array (v : json) : bool :=
  match v with
  | JArr _ => true
  | _ => false
  end.

(** * The tag creator (xml-tag-creator)

    The [XmlTagCreator] class of the same bundle: the tag sanitiser, the
    list of recent tags kept in localStorage, and the button it adds to the
    toolbar of the chat input.  Strings are strings of characters with
    codes below 256; [toLowerCase] changes the letters A to Z only, the
    characters above the ASCII range being replaced by the next step
    whichever case they are in. *)

Module XmlTagCreator.

Definition STORAGE_KEY : string := "xml_tag_creator_recent_tags".
Definition MAX_RECENTS : nat := 10.

(** ** [sanitize], on the ASCII range *)

Definition code_between (lo hi : nat) (a : ascii) : bool :=
  (lo <=? Ascii.nat_of_ascii a) && (Ascii.nat_of_ascii a <=? hi).

Definition is_upper : ascii → bool := code_between 65 90.
Definition is_lower : ascii → bool := code_between 97 122.
Definition is_digit : ascii → bool := code_between 48 57.
Definition is_underscore (a : ascii) : bool := bool_decide (a = "_"%char).
Definition is_hyphen (a : ascii) : bool := bool_decide (a = "-"%char).

(** [[a-z0-9_-]] *)
Definition name_char (a : ascii) : bool :=
  is_lower a || is_digit a || is_underscore a || is_hyphen a.

Definition lower (a : ascii) : ascii :=
  if is_upper a then Ascii.ascii_of_nat (Ascii.nat_of_ascii a + 32) else a.

Fixpoint toLowerCase (s : string) : string :=
  match s with
  | EmptyString => EmptyString
  | String a s' => String (lower a) (toLowerCase s')
  end.

(** [s.replace(/C+/g, '_')] for a class [C] of characters: every maximal
    run of characters of the class becomes one underscore.  [in_run] tells
    that the character before was of the class. *)
Fixpoint squeeze (C : ascii → bool) (in_run : bool) (s : string) : string :=
  match s with
  | EmptyString => EmptyString
  | String a s' =>
      if C a then
        if in_run then squeeze C true s' else String "_" (squeeze C true s')
      else String a (squeeze C false s')
  end.

(** [s.replace(/^_+|_+$/g, '')] *)
Fixpoint drop_leading (s : string) : string :=
  match s with
  | String a s' => if is_underscore a then drop_leading s' else s
  | EmptyString => EmptyString
  end.

Fixpoint drop_trailing (s : string) : string :=
  match s with
  | EmptyString => EmptyString
  | String a s' =>
      match drop_trailing s' with
      | EmptyString => if is_underscore a then EmptyString else String a EmptyString
      | t => String a t
      end
  end.

Definition trim_underscores (s : string) : string := drop_trailing (drop_leading s).

Definition startsWith (pre s : string) : bool := String.prefix pre s.

(** [/^[a-z_]/.test(s)] *)
Definition starts_name (s : string) : bool :=
  match s with
  | String a _ => is_lower a || is_underscore a
  | EmptyString => false
  end.

Definition sanitize (tag : string) (trimEdges : bool) : string :=
  let clean :=
    squeeze is_underscore false
      (squeeze (λ a, negb (name_char a)) false (toLowerCase tag)) in
  let clean := if trimEdges then trim_underscores clean else clean in
  if bool_decide (clean = "") || bool_decide (clean = "code") then ""
  else if startsWith "xml" clean || negb (starts_name clean)
       then String "_" clean
       else clean.

(** [XmlTagCreator.sanitize(tag.value) || 'code'] of [doInsert] *)
Definition xmlTag (value : string) : string :=
  let s := sanitize value true in
  if bool_decide (s = "") then "code" else s.

(** ** Recent tags *)

(** What [JSON.parse] makes of the text that [JSON.stringify] writes for
    a value: a number is written as the binary64 it is, and a number
    beyond the binary64 range, which the code holds as an infinity, is
    written as [null]; strings, booleans and [null] are written as they
    are, arrays and objects item by item. *)
Fixpoint written (v : json) : json :=
  match v with
  | JNum q =>
      match binary64 q with
      | Some r => JNum r
      | None => JNull
      end
  | JArr items => JArr (written <$> items)
  | JObj members => JObj ((λ m, (m.1, written m.2)) <$> members)
  | _ => v
  end.

Definition JSON_stringify_value (v : json) : text := Doc (written v).

(** [JSON.parse(localStorage.getItem(key))]: [null] is read as the text
    "null". *)
Definition parse_item (s : option text) : result json :=
  match s with
  | None => Ok JNull
  | Some t => JSON_parse t
  end.

(** [loadRecents]: [try { return JSON.parse(...) ?? []; } catch { return []; }] *)
Definition loadRecents (localStorage : gmap string text) : json :=
  match parse_item (localStorage !! STORAGE_KEY) with
  | Ok JNull => JArr []
  | Ok v => v
  | Raise _ => JArr []
  end.

(** The state of the creator that the recent tags need: [state.recent] and
    the store. *)
Record creator := Creator {
  recent : json;
  storage : gmap string text;
}.

Definition saveRecents (c : creator) : creator :=
  Creator (recent c) (<[STORAGE_KEY := JSON_stringify_value (recent c)]> (storage c)).

(** [t !== tag] for an entry [t] of the list *)
Definition is_tag (tag : string) (t : json) : bool :=
  match t with
  | JStr s => bool_decide (s = tag)
  | _ => false
  end.

Definition pushRecent (tag : string) (c : creator) : result creator :=
  if bool_decide (tag = "") then Ok c else
  match recent c with
  | JArr items =>
      let l := take MAX_RECENTS
                 (JStr tag :: filter (λ t, ¬ is_tag tag t) items) in
      Ok (saveRecents (Creator (JArr l) (storage c)))
  | _ => Raise TypeError
  end.

(** [new XmlTagCreator()] as far as the recent tags go *)
Definition boot (localStorage : gmap string text) : creator :=
  Creator (loadRecents localStorage) localStorage.

(** [clearBtn.onclick] of the modal, as far as the recent tags go *)
Definition clearRecents (c : creator) : creator :=
  saveRecents (Creator (JArr []) (storage c)).

(** ** The toolbar button *)

(** The [data-element-id] the selectors [voiceBtn] and [insertBtn] ask
    for. *)
Definition voiceBtn : string := "voice-input-button".
Definition insertBtn : string := "insert-code-button".

(** A node of the toolbar's subtree: its [dataset.elementId], if it has
    one, and its child nodes. *)
Inductive node := Node (elementId : option string) (childNodes : list node).

Definition childNodes_of (n : node) : list node :=
  match n with Node _ kids => kids end.

(** [n.matches('[data-element-id="id"]')] *)
Definition matches (id : string) (n : node) : bool :=
  match n with Node i _ => bool_decide (i = Some id) end.

Definition has_next (rest : list node) : bool :=
  match rest with [] => false | _ => true end.

(** The first node below [n] in document order that matches: [Some b]
    tells whether it has a next sibling. *)
Fixpoint inner (id : string) (n : node) : option bool :=
  match n with
  | Node _ kids =>
      (fix go (l : list node) : option bool :=
         match l with
         | [] => None
         | k :: rest =>
             if matches id k then Some (has_next rest)
             else match inner id k with
                  | Some b => Some b
                  | None => go rest
                  end
         end) kids
  end.

(** What [bar.querySelector] finds, seen from the bar: child number [i]
    of the bar, or a node further down. *)
Inductive place :=
| Child (i : nat)
| Inside (nextSibling : bool).

(** [bar.querySelector('[data-element-id="id"]')] over the children
    [kids] of the bar, the first of which is child number [i]. *)
Fixpoint querySelector (id : string) (kids : list node) (i : nat) : option place :=
  match kids with
  | [] => None
  | k :: rest =>
      if matches id k then Some (Child i)
      else match inner id k with
           | Some b => Some (Inside b)
           | None => querySelector id rest (S i)
           end
  end.

(** [voice?.nextSibling ?? null]: nothing, a child of the bar, or a node
    whose parent is not the bar. *)
Inductive reference :=
| Null
| ChildAt (i : nat)
| Elsewhere.

Definition nextSibling (voice : option place) (kids : list node) : reference :=
  match voice with
  | None => Null
  | Some (Child i) => if decide (S i < length kids) then ChildAt (S i) else Null
  | Some (Inside true) => Elsewhere
  | Some (Inside false) => Null
  end.

Inductive DOM (A : Type) :=
| Returned (a : A)
| NotFoundError.
Arguments Returned {A} a.
Arguments NotFoundError {A}.

(** [bar.insertBefore(new, ref)]: a reference that is not a child of the
    bar is refused before anything is changed. *)
Definition insertBefore (new : node) (ref : reference) (kids : list node)
    : DOM (list node) :=
  match ref with
  | Null => Returned (kids ++ [new])
  | ChildAt i => Returned (take i kids ++ new :: drop i kids)
  | Elsewhere => NotFoundError
  end.

(** The button with the icon its [innerHTML] gives it. *)
Definition text_node : node := Node None [].
Definition btn : node :=
  Node (Some insertBtn)
    [text_node;
     Node None [text_node; Node None []; text_node; Node None []; text_node]].

(** [addToolbarBtn], on what [document.querySelector(SELECTORS.toolbar)]
    finds. *)
Definition addToolbarBtn (bar : option node) : DOM (option node) :=
  match bar with
  | None => Returned None
  | Some (Node id kids) =>
      if bool_decide (is_Some (querySelector insertBtn kids 0)) then Returned bar
      else
        let voice := querySelector voiceBtn kids 0 in
        match insertBefore btn (nextSibling voice kids) kids with
        | Returned kids' => Returned (Some (Node id kids'))
        | NotFoundError => NotFoundError
        end
  end.

End XmlTagCreator.


(** ** Shapes of strings *)

Fixpoint every (P : ascii → bool) (s : string) : bool :=
  match s with
  | EmptyString => true
  | String a s' => P a && every P s'
  end.

(** No two underscores in a row; [prev] tells that the character before
    the string is an underscore. *)
Fixpoint spaced (prev : bool) (s : string) : bool :=
  match s with
  | EmptyString => true
  | String a s' =>
      if XmlTagCreator.is_underscore a then negb prev && spaced true s'
      else spaced false s'
  end.

Definition starts_underscore (s : string) : bool :=
  match s with
  | String a _ => XmlTagCreator.is_underscore a
  | EmptyString => false
  end.

Fixpoint ends_underscore (s : string) : bool :=
  match s with
  | EmptyString => false
  | String a EmptyString => XmlTagCreator.is_underscore a
  | String _ s' => ends_underscore s'
  end.

(** A well-formed tag name: [[a-z_][a-z0-9_-]*], not beginning with
    "xml". *)
Definition tag_name (s : string) : Prop :=
  every XmlTagCreator.name_char s = true
  ∧ XmlTagCreator.starts_name s = true
  ∧ XmlTagCreator.startsWith "xml" s = false.

(** The two stages of [sanitize]: the replacements, and the decision on
    what they leave. *)
Definition cleaned (tag : string) : string :=
  XmlTagCreator.squeeze XmlTagCreator.is_underscore false
    (XmlTagCreator.squeeze (λ a, negb (XmlTagCreator.name_char a)) false
       (XmlTagCreator.toLowerCase tag)).

Definition finish (clean : string) : string :=
  if bool_decide (clean = "") || bool_decide (clean = "code") then ""
  else if XmlTagCreator.startsWith "xml" clean
          || negb (XmlTagCreator.starts_name clean)
       then String "_" clean
       else clean.

(** [pushRecent] for one tag after the other *)
Fixpoint pushes (tags : list string) (c : XmlTagCreator.creator)
    : result XmlTagCreator.creator :=
  match tags with
  | [] => Ok c
  | t :: rest => c' ← XmlTagCreator.pushRecent t c; pushes rest c'
  end.

(** The tags of [tags], each at its last use, the most recent first. *)
Definition most_recent_first (tags : list string) : list string :=
  reverse (remove_dups tags).

(** A creator whose recent tags are the strings [l]. *)
Definition recents_of (l : list string) (st : gmap string text)
    : XmlTagCreator.creator :=
  XmlTagCreator.Creator (JArr (JStr <$> l)) st.

(** A voice button. *)
Definition voice_node : XmlTagCreator.node :=
  XmlTagCreator.Node (Some XmlTagCreator.voiceBtn) [].

(** * Numbers that do not round to zero *)

Section numbers.
Local Open Scope Z_scope.

Lemma round_half_even_ge n d : 0 < d → d <= n → 1 <= round_half_even n d.
Proof.
  intros Hd Hn. unfold round_half_even.
  assert (1 <= n / d) as Hq.
  { apply Z.div_le_lower_bound; lia. }
  destruct (2 * (n mod d) ?= d); [destruct (Z.even (n / d))|..]; lia.
Qed.

Lemma exponent_le z : 0 < z → exponent z 1 <= Z.log2 z.
Proof.
  intros Hz. unfold exponent. change (Z.log2 1) with 0.
  destruct (at_least_pow2 z 1 _); lia.
Qed.

Lemma nearest_positive z m k : 0 < z → nearest z 1 = Some (m, k) → 0 < m.
Proof.
  intros Hz. unfold nearest.
  set (k0 := Z.max (exponent z 1 - 52) (-1074)).
  destruct (2 ^ 1024 <=? _); [done|]. intros [= <- <-].
  destruct (0 <=? k0) eqn:Hk.
  - apply Z.leb_le in Hk.
    assert (1 <= round_half_even z (1 * 2 ^ k0)); [|lia].
    apply round_half_even_ge; [lia|]. rewrite Z.mul_1_l.
    pose proof (exponent_le z Hz) as He.
    pose proof (Z.log2_spec z Hz) as [Hl _].
    transitivity (2 ^ Z.log2 z); [|done].
    apply Z.pow_le_mono_r; lia.
  - apply Z.leb_gt in Hk.
    assert (1 <= round_half_even (z * 2 ^ (- k0)) 1); [|lia].
    apply round_half_even_ge; [lia|].
    assert (0 < 2 ^ (- k0)) by (apply Z.pow_pos_nonneg; lia). nia.
Qed.

Lemma scaled_nonzero m k : 0 < m → Qeq_bool (scaled m k) 0 = false.
Proof.
  intros Hm. apply not_true_iff_false. rewrite Qeq_bool_iff. unfold scaled.
  rewrite Qred_correct. destruct (0 <=? k) eqn:Hk.
  - apply Z.leb_le in Hk. unfold Qeq, inject_Z. simpl.
    assert (0 < 2 ^ k) by (apply Z.pow_pos_nonneg; lia). nia.
  - unfold Qeq. simpl. lia.
Qed.
End numbers.

Lemma binary64_natural n :
  n ≠ 0 →
  match binary64 (inject_Z (Z.of_nat n)) with
  | Some r => Qeq_bool r 0 = false
  | None => True
  end.
Proof.
  intros Hn. unfold binary64. simpl Qnum. simpl Qden.
  assert (0 < Z.of_nat n)%Z as Hz by lia.
  rewrite (proj2 (Z.compare_gt_iff _ _)) by lia.
  destruct (nearest (Z.of_nat n) 1) as [[m k]|] eqn:Hnear; [|done].
  apply scaled_nonzero. by eapply nearest_positive.
Qed.

(** * Moving elements to the end of the list *)

Section moves.
Implicit Types ch ts : list nat.

Lemma detach_app el ch1 ch2 : detach el (ch1 ++ ch2) = detach el ch1 ++ detach el ch2.
Proof. apply filter_app. Qed.

Lemma foldl_appendChild ts ch :
  foldl (λ c el, appendChild el c) ch ts
  = filter (λ i, i ∉ ts) ch ++ remove_dups ts.
Proof.
  revert ch. induction ts as [|t ts IH]; intros ch; simpl.
  - rewrite app_nil_r. induction ch as [|x ch IHc]; [done|].
    rewrite filter_cons_True; [by f_equal|]. apply not_elem_of_nil.
  - rewrite IH. unfold appendChild, detach. rewrite filter_app.
    rewrite list_filter_filter.
    assert (filter (λ i, (i ∉ ts) ∧ i ≠ t) ch
            = filter (λ i, i ∉ (t :: ts)) ch) as ->.
    { apply list_filter_iff. intros x. rewrite not_elem_of_cons. tauto. }
    rewrite <- app_assoc. f_equal.
    destruct (decide_rel elem_of t ts) as [Hin|Hin].
    + rewrite filter_cons_False; [done|]. tauto.
    + rewrite filter_cons_True; done.
Qed.

Lemma foldl_restore_one map items ch :
  foldl (Sorter.restore_one map) ch items
  = foldl (λ c el, appendChild el c) ch (omap (pick map) items).
Proof.
  revert ch. induction items as [|n items IH]; intros ch; [done|]. simpl.
  rewrite IH. unfold Sorter.restore_one, pick.
  destruct n; try done. by destruct (map !! s).
Qed.
End moves.

(** * The name map of the restore *)

Section name_map.
Variable p : page.
Lemma step_lookup m r s :
  Sorter.remember p m r !! s
  = if bool_decide (name p r = Some s ∧ s ≠ "") then Some r else m !! s.
Proof.
  unfold Sorter.remember. destruct (name p r) as [n|] eqn:Hn.
  - destruct (bool_decide_reflect (n ≠ "")) as [Hne|Hne].
    + destruct (decide (n = s)) as [->|Hns].
      * rewrite lookup_insert_eq. by rewrite bool_decide_eq_true_2.
      * rewrite lookup_insert_ne by done. rewrite bool_decide_eq_false_2; [done|].
        intros [[=] _]. done.
    + rewrite bool_decide_eq_false_2; [done|]. intros [[= ->] ?]. done.
  - rewrite bool_decide_eq_false_2; [done|]. by intros [? _].
Qed.

Lemma fold_sound l m s r :
  foldl (Sorter.remember p) m l !! s = Some r →
  m !! s = Some r ∨ (r ∈ l ∧ name p r = Some s ∧ s ≠ "").
Proof.
  revert m. induction l as [|x l IH]; intros m; simpl; [by left|].
  intros [H|(?&?&?)]%IH.
  - rewrite step_lookup in H. case_bool_decide as Hx.
    + injection H as <-. right. split; [left|done].
    + by left.
  - right. split; [by right|done].
Qed.

Lemma fold_keeps l m s :
  is_Some (m !! s) → is_Some (foldl (Sorter.remember p) m l !! s).
Proof.
  revert m. induction l as [|x l IH]; intros m Hm; [done|]. simpl.
  apply IH. rewrite step_lookup. by case_bool_decide.
Qed.

Lemma fold_complete l m s r :
  r ∈ l → name p r = Some s → s ≠ "" →
  is_Some (foldl (Sorter.remember p) m l !! s).
Proof.
  revert m. induction l as [|x l IH]; intros m Hin Hn Hs; [by apply elem_of_nil in Hin|].
  simpl. apply elem_of_cons in Hin as [->|Hin]; [|by apply IH].
  apply fold_keeps. rewrite step_lookup, bool_decide_eq_true_2; eauto.
Qed.

Lemma name_map_sound s r :
  Sorter.name_map p !! s = Some r → r ∈ rows p ∧ name p r = Some s ∧ s ≠ "".
Proof.
  intros [H|H]%fold_sound; [|done]. by rewrite lookup_empty in H.
Qed.

Lemma name_map_complete s r :
  r ∈ rows p → name p r = Some s → s ≠ "" → is_Some (Sorter.name_map p !! s).
Proof. intros. by eapply fold_complete. Qed.

Lemma name_map_unique s r :
  unique_names p → r ∈ rows p → name p r = Some s → s ≠ "" →
  Sorter.name_map p !! s = Some r.
Proof.
  intros Hu Hr Hn Hs. destruct (name_map_complete s r) as [r' Hr']; [done..|].
  rewrite Hr'. f_equal. apply name_map_sound in Hr' as (?&?&?). eauto.
Qed.
End name_map.

(** * Filters *)

Section filters.
Context {A : Type} (P Q : A → Prop) `{!∀ x, Decision (P x), !∀ x, Decision (Q x)}.

Lemma filter_agree (l : list A) :
  (∀ x, x ∈ l → P x ↔ Q x) → filter P l = filter Q l.
Proof.
  induction l as [|a l IH]; intros Hl; [done|].
  rewrite !filter_cons, IH by (intros; apply Hl; by right).
  destruct (decide (P a)) as [HP|HP], (decide (Q a)) as [HQ|HQ]; try done.
  - apply Hl in HP; [done|left].
  - apply Hl in HQ; [done|left].
Qed.

Lemma filter_all (l : list A) : (∀ x, x ∈ l → P x) → filter P l = l.
Proof.
  induction l as [|a l IH]; intros Hl; [done|].
  rewrite filter_cons_True by (apply Hl; left).
  f_equal. apply IH. intros; apply Hl; by right.
Qed.

Lemma filter_nothing (l : list A) : (∀ x, x ∈ l → ¬ P x) → filter P l = [].
Proof.
  induction l as [|a l IH]; intros Hl; [done|].
  rewrite filter_cons_False by (apply Hl; left).
  apply IH. intros; apply Hl; by right.
Qed.

Lemma filter_fmap {B} (f : B → A) (l : list B) :
  filter P (f <$> l) = f <$> filter (λ x, P (f x)) l.
Proof.
  induction l as [|b l IH]; [done|]. rewrite fmap_cons, !filter_cons, IH.
  by destruct (decide (P (f b))).
Qed.
End filters.

Lemma remove_dups_step `{EqDecision A} (x : A) (l : list A) :
  remove_dups (x :: l) = if decide (x ∈ l) then remove_dups l else x :: remove_dups l.
Proof. done. Qed.

Lemma omap_step {A B} (f : A → option B) (x : A) (l : list A) :
  omap f (x :: l) = match f x with Some y => y :: omap f l | None => omap f l end.
Proof. done. Qed.

Section restore.
Implicit Types (p : page) (S : list string) (T : list nat).

Lemma with_children_same p : with_children (children p) p = p.
Proof. by destruct p. Qed.

Lemma filter_none (l : list nat) : filter (λ i, i ∉ @nil nat) l = l.
Proof.
  induction l as [|x l IH]; [done|].
  rewrite filter_cons_True; [by f_equal|]. apply not_elem_of_nil.
Qed.

Lemma truthy_number n : truthy (Some (number n)) = bool_decide (n ≠ 0).
Proof.
  destruct n as [|n]; [done|]. rewrite bool_decide_eq_true_2 by done.
  unfold truthy, number. pose proof (binary64_natural (S n)) as H.
  destruct (binary64 _); [|done]. by rewrite H.
Qed.

(** What the restore does with a stored array. *)
Lemma applySaved_array p items :
  localStorage p !! CONFIG.STORAGE_KEY = Some (Doc (JArr items)) →
  let T := omap (pick (Sorter.name_map p)) items in
  Sorter.applySaved p
  = Ok (with_children (filter (λ i, i ∉ T) (children p) ++ remove_dups T) p).
Proof.
  intros Hst T. unfold Sorter.applySaved, Store.get. rewrite Hst.
  destruct items as [|n items].
  - subst T. simpl. by rewrite filter_none, app_nil_r, with_children_same.
  - cbn [or_empty_array JSON_parse mbind result_bind get_length forEach_items].
    rewrite truthy_number, bool_decide_eq_true_2 by done.
    by rewrite foldl_restore_one, foldl_appendChild.
Qed.

Lemma pick_in_rows p (items : list json) :
  ∀ r, r ∈ omap (pick (Sorter.name_map p)) items → r ∈ rows p.
Proof.
  intros r (n & _ & Hn)%list_elem_of_omap. destruct n; try done.
  by apply name_map_sound in Hn as [? _].
Qed.

Lemma rows_with_children p ch :
  rows (with_children ch p) = filter (λ i, is_row p i) ch.
Proof. done. Qed.

Lemma rows_moved p T :
  (∀ r, r ∈ T → r ∈ rows p) →
  rows (with_children (filter (λ i, i ∉ T) (children p) ++ remove_dups T) p)
  = filter (λ i, i ∉ T) (rows p) ++ remove_dups T.
Proof.
  intros HT. rewrite rows_with_children, filter_app. f_equal.
  - unfold rows. rewrite !list_filter_filter. apply list_filter_iff. tauto.
  - apply filter_all. intros r Hr. rewrite elem_of_remove_dups in Hr.
    apply HT in Hr. unfold rows in Hr. by apply list_elem_of_filter in Hr as [? _].
Qed.

(** The name map sends distinct saved names to distinct rows. *)
Lemma remove_dups_omap p S :
  remove_dups (omap (λ s, Sorter.name_map p !! s) S)
  = omap (λ s, Sorter.name_map p !! s) (remove_dups S).
Proof.
  induction S as [|s S IH]; [done|].
  rewrite omap_step, (remove_dups_step s).
  destruct (Sorter.name_map p !! s) as [r|] eqn:Hr.
  - rewrite remove_dups_step.
    destruct (decide (s ∈ S)) as [Hs|Hs],
      (decide (r ∈ omap (λ s, Sorter.name_map p !! s) S)) as [Ho|Ho].
    + done.
    + destruct Ho. apply list_elem_of_omap. eauto.
    + apply list_elem_of_omap in Ho as (s' & Hs' & Hr'). destruct Hs.
      apply name_map_sound in Hr as (_ & Hr & _).
      apply name_map_sound in Hr' as (_ & Hr' & _). congruence.
    + by rewrite omap_step, Hr, IH.
  - destruct (decide (s ∈ S)); [done|]. by rewrite omap_step, Hr.
Qed.

Lemma name_omap p S :
  name p <$> omap (λ s, Sorter.name_map p !! s) S
  = Some <$> filter (λ s, current_name p s) S.
Proof.
  induction S as [|s S IH]; [done|]. rewrite omap_step, filter_cons.
  destruct (Sorter.name_map p !! s) as [r|] eqn:Hr.
  - apply name_map_sound in Hr as (Hin & Hn & Hs).
    rewrite decide_True.
    + by rewrite !fmap_cons, Hn, IH.
    + split; [done|]. apply list_elem_of_fmap. eauto.
  - rewrite decide_False; [done|].
    intros [Hs (r & Hn & Hin)%list_elem_of_fmap].
    destruct (name_map_complete p s r) as [? ?]; [done..|]. congruence.
Qed.

Lemma pick_names p S :
  omap (pick (Sorter.name_map p)) (JStr <$> S) = omap (λ s, Sorter.name_map p !! s) S.
Proof.
  induction S as [|s S IH]; [done|].
  rewrite fmap_cons, !omap_step, IH. done.
Qed.
End restore.

Section restore_claims.
Implicit Types (p : page) (S : list string).

Lemma restore_names p S :
  localStorage p !! CONFIG.STORAGE_KEY = Some (Doc (JArr (JStr <$> S))) →
  let T := omap (λ s, Sorter.name_map p !! s) S in
  ∃ p', Sorter.applySaved p = Ok p' ∧ heap p' = heap p ∧
        localStorage p' = localStorage p ∧
        rows p' = filter (λ i, i ∉ T) (rows p) ++ remove_dups T.
Proof.
  intros Hst T.
  exists (with_children (filter (λ i, i ∉ T) (children p) ++ remove_dups T) p).
  split; [|split; [done|split; [done|]]].
  - rewrite (applySaved_array p _ Hst). simpl. by rewrite pick_names.
  - apply rows_moved. intros r Hr. subst T. rewrite <- pick_names in Hr.
    by eapply pick_in_rows.
Qed.

Lemma restore_order_names p S :
  unique_names p →
  localStorage p !! CONFIG.STORAGE_KEY = Some (Doc (JArr (JStr <$> S))) →
  ∃ p', Sorter.applySaved p = Ok p' ∧
        names p' = filter (λ o, ¬ saved_name S o) (names p)
                   ++ (Some <$> filter (λ s, current_name p s) (remove_dups S)).
Proof.
  intros Hu Hst. destruct (restore_names p S Hst) as (p' & Hp' & Hh & _ & Hrows).
  exists p'. split; [done|]. unfold names at 1.
  assert (name p' = name p) as -> by (unfold name, row_at; by rewrite Hh).
  rewrite Hrows, fmap_app, remove_dups_omap, name_omap. f_equal.
  unfold names. rewrite filter_fmap. f_equal. apply filter_agree.
  intros r Hr. rewrite list_elem_of_omap. unfold saved_name. split.
  - intros Hno Hyes. apply Hno. destruct (name p r) as [s|] eqn:Hn; [|done].
    apply bool_decide_unpack in Hyes as [Hs HS]. exists s. split; [done|].
    by apply name_map_unique.
  - intros Hno (s & HS & Hm). apply Hno.
    apply name_map_sound in Hm as (_ & -> & Hs). by apply bool_decide_pack.
Qed.

(** Claim C3, as the code has it.  Let the rows have distinct names and
    let [S] be the saved order.  After the restore, the rows whose names
    are not in [S] come first, in their original relative order, and the
    rows named in [S] follow them in the order of [S]: names that no row
    carries are skipped, and a name that [S] repeats counts at its last
    place. *)
Theorem restore_order (S : list string) (p : page) :
  unique_names p →
  localStorage p !! CONFIG.STORAGE_KEY = Some (JSON_stringify S) →
  ∃ p', Sorter.applySaved p = Ok p' ∧
        names p' = filter (λ o, ¬ saved_name S o) (names p)
                   ++ (Some <$> filter (λ s, current_name p s) (remove_dups S)).
Proof. apply restore_order_names. Qed.
End restore_claims.

Lemma remove_dups_NoDup `{EqDecision A} (l : list A) : NoDup l → remove_dups l = l.
Proof.
  induction 1 as [|x l Hx _ IH]; [done|].
  rewrite remove_dups_step, decide_False by done. by f_equal.
Qed.

Lemma NoDup_fmap_eq {A B} (f : A → B) (l : list A) x y :
  NoDup (f <$> l) → x ∈ l → y ∈ l → f x = f y → x = y.
Proof.
  induction l as [|a l IH]; intros Hnd Hx Hy Hf; [by apply elem_of_nil in Hx|].
  rewrite fmap_cons in Hnd. apply NoDup_cons in Hnd as [Ha Hnd].
  apply elem_of_cons in Hx as [->|Hx]; apply elem_of_cons in Hy as [->|Hy]; auto.
  - destruct Ha. rewrite Hf. by apply list_elem_of_fmap_2.
  - destruct Ha. rewrite <- Hf. by apply list_elem_of_fmap_2.
Qed.

Section roundtrip.
Implicit Types (p : page) (S : list string).

Lemma unique_names_NoDup p : NoDup (names p) → unique_names p.
Proof.
  intros Hnd i j n Hi Hj Hni Hnj _.
  apply (NoDup_fmap_eq (name p) (rows p)); [done..|congruence].
Qed.

(** Claim C1 (round trip).  Let [S] be a sequence of distinct display
    names; a display name is what a row yields as its name, so it is not
    empty.  Let the rows of the list be named exactly by the elements of
    [S], in any order.  Saving [S] through the storage helper and then
    running the restore leaves the rows, read top to bottom, named [S]. *)
Theorem save_restore_roundtrip S p :
  NoDup S → "" ∉ S → names p ≡ₚ Some <$> S →
  ∃ p', Sorter.applySaved
          (with_localStorage (Store.save CONFIG.STORAGE_KEY S (localStorage p)) p)
        = Ok p'
        ∧ names p' = Some <$> S.
Proof.
  intros HS Hne Hperm.
  set (p0 := with_localStorage (Store.save CONFIG.STORAGE_KEY S (localStorage p)) p).
  assert (NoDup (names p)) as Hnd.
  { rewrite Hperm. apply NoDup_fmap_2; [apply _|done]. }
  destruct (restore_order_names p0 S) as (p' & Hp' & Hn).
  { by apply unique_names_NoDup. }
  { apply lookup_insert_eq. }
  exists p'. split; [done|]. rewrite Hn. change (names p0) with (names p).
  rewrite remove_dups_NoDup by done.
  rewrite (filter_all (λ s, current_name p0 s)).
  - rewrite filter_nothing; [done|].
    intros o Ho Hno. apply Hno.
    rewrite Hperm in Ho. apply list_elem_of_fmap in Ho as (s & -> & Hs).
    apply bool_decide_pack. split; [|done]. by intros ->.
  - intros s Hs. split; [by intros ->|].
    change (names p0) with (names p). rewrite Hperm. by apply list_elem_of_fmap_2.
Qed.
End roundtrip.

Section restore_any_store.
Implicit Types (p : page).

(** Whatever the store holds, a restore that returns has moved some rows
    of the list to its end and done nothing else. *)
Lemma applySaved_moves p p' :
  Sorter.applySaved p = Ok p' →
  ∃ T, (∀ r, r ∈ T → r ∈ rows p) ∧
       p' = with_children (filter (λ i, i ∉ T) (children p) ++ remove_dups T) p.
Proof.
  intros Hok.
  assert (Ok p = Ok p' → ∃ T, (∀ r, r ∈ T → r ∈ rows p) ∧
       p' = with_children (filter (λ i, i ∉ T) (children p) ++ remove_dups T) p) as Hsame.
  { intros [= <-]. exists []. split; [by intros r ?%elem_of_nil|].
    by rewrite filter_none, app_nil_r, with_children_same. }
  destruct (localStorage p !! CONFIG.STORAGE_KEY) as [[| |v]|] eqn:Hst.
  - apply Hsame. rewrite <- Hok. unfold Sorter.applySaved, Store.get. by rewrite Hst.
  - unfold Sorter.applySaved, Store.get in Hok. by rewrite Hst in Hok.
  - destruct v as [|b|q|s|items|members].
    + unfold Sorter.applySaved, Store.get in Hok. by rewrite Hst in Hok.
    + apply Hsame. rewrite <- Hok. unfold Sorter.applySaved, Store.get. by rewrite Hst.
    + apply Hsame. rewrite <- Hok. unfold Sorter.applySaved, Store.get. by rewrite Hst.
    + apply Hsame. rewrite <- Hok. unfold Sorter.applySaved, Store.get in *.
      rewrite Hst in *. cbn in *. by destruct (negb _).
    + rewrite (applySaved_array p items Hst) in Hok. injection Hok as <-.
      eexists. split; [|done]. apply pick_in_rows.
    + apply Hsame. rewrite <- Hok. unfold Sorter.applySaved, Store.get in *.
      rewrite Hst in *. cbn in *. by destruct (negb _).
  - apply Hsame. rewrite <- Hok. unfold Sorter.applySaved, Store.get. by rewrite Hst.
Qed.

Lemma moved_permutation (ch T : list nat) :
  NoDup ch → (∀ r, r ∈ T → r ∈ ch) →
  filter (λ i, i ∉ T) ch ++ remove_dups T ≡ₚ ch.
Proof.
  intros Hnd HT. apply NoDup_Permutation; [|done|].
  - apply NoDup_app. split; [by apply NoDup_filter|]. split; [|apply NoDup_remove_dups].
    intros x [Hx _]%list_elem_of_filter. by rewrite elem_of_remove_dups.
  - intros x. rewrite elem_of_app, list_elem_of_filter, elem_of_remove_dups.
    specialize (HT x). destruct (decide (x ∈ T)); tauto.
Qed.

(** Claim C9 (the restore keeps the rows).  In a list whose elements are
    distinct, a restore that returns leaves the same elements and the same
    rows, each once, and touches no element object; the list that [#init]
    leaves, whether the restore returned or threw, holds the same elements
    too. *)
Theorem restore_preserves_rows p :
  NoDup (children p) →
  (∀ p', Sorter.applySaved p = Ok p' →
         children p' ≡ₚ children p ∧ rows p' ≡ₚ rows p ∧ heap p' = heap p)
  ∧ children (Sorter.init p).1 ≡ₚ children p.
Proof.
  intros Hnd.
  assert (∀ q p', children q = children p → heap q = heap p →
            Sorter.applySaved q = Ok p' →
            children p' ≡ₚ children p ∧ rows p' ≡ₚ rows p ∧ heap p' = heap p) as Hgen.
  { intros q p' Hch Hh (T & HT & ->)%applySaved_moves.
    assert (rows q = rows p) as Hr by (unfold rows, is_row, row_at; by rewrite Hch, Hh).
    rewrite Hr in HT. split; [|split; [|done]].
    - simpl. rewrite Hch. apply moved_permutation; [done|].
      intros r Hr'%HT. unfold rows in Hr'. by apply list_elem_of_filter in Hr' as [_ ?].
    - rewrite rows_moved by (by rewrite Hr). rewrite Hr. apply moved_permutation; [|done].
      by apply NoDup_filter. }
  split; [intros p'; by apply Hgen|].
  unfold Sorter.init. destruct (Sorter.applySaved _) as [p2|e] eqn:Hp2; [|done].
  apply Hgen in Hp2 as (Hp2 & _); [|done..]. simpl.
  rewrite <- Hp2. clear. generalize (rows p2). intros l. revert p2.
  induction l as [|r l IH]; intros p2; [done|]. simpl. rewrite IH.
  unfold Sorter.grip, update_row. destruct (row_at p2 r) as [x|]; [|done].
  by destruct (hasHandle x).
Qed.
End restore_any_store.

(** * What the store may hold *)

Section stored_values.
Implicit Types (p : page).

(** A missing item, the empty string and a stored empty array all read as
  no saved order. *)
Lemma restore_without_order p :
or_empty_array (localStorage p !! CONFIG.STORAGE_KEY) = Doc (JArr []) →
Sorter.applySaved p = Ok p.
Proof. intros H. unfold Sorter.applySaved, Store.get. by rewrite H. Qed.

Lemma restore_corrupt p :
localStorage p !! CONFIG.STORAGE_KEY = Some Garbled →
Sorter.applySaved p = Raise SyntaxError
∧ Sorter.init p = (with_sortAttach true p, Some SyntaxError).
Proof.
intros H.
assert (∀ q, localStorage q = localStorage p →
             Sorter.applySaved q = Raise SyntaxError) as Hq.
{ intros q Hl. unfold Sorter.applySaved, Store.get. by rewrite Hl, H. }
split; [by apply Hq|]. unfold Sorter.init. by rewrite Hq.
Qed.

(** A stored value that is not an array is skipped when it has no truthy
  [length]; otherwise the call of its missing [forEach] throws. *)
Lemma restore_not_array p v :
localStorage p !! CONFIG.STORAGE_KEY = Some (Doc v) →
(∀ items, v ≠ JArr items) →
Sorter.applySaved p = if lengthless v then Ok p else Raise TypeError.
Proof.
intros H Hv. unfold Sorter.applySaved, Store.get, lengthless. rewrite H.
destruct v as [|b|q|s|items|members]; try done.
by destruct (Hv items).
Qed.

(** A stored array none of whose entries is the name of a row moves
  nothing. *)
Lemma restore_strangers p items :
localStorage p !! CONFIG.STORAGE_KEY = Some (Doc (JArr items)) →
(∀ n, n ∈ items → pick (Sorter.name_map p) n = None) →
Sorter.applySaved p = Ok p.
Proof.
intros H Hnone. rewrite (applySaved_array p items H). simpl.
assert (omap (pick (Sorter.name_map p)) items = []) as ->.
{ clear H. induction items as [|n items IH]; [done|].
  rewrite omap_step. rewrite (Hnone n) by left.
  apply IH. intros; apply Hnone; by right. }
by rewrite filter_none, app_nil_r, with_children_same.
Qed.
End stored_values.

(** * Attachment *)

Section attach.
Implicit Types (p : page) (l : list nat).

Lemma row_at_update p a f i :
  row_at (update_row a f p) i
  = if decide (i = a) then f <$> row_at p i else row_at p i.
Proof.
  unfold update_row. destruct (row_at p a) as [x|] eqn:Ha.
  - unfold row_at at 1. simpl. destruct (decide (i = a)) as [->|Hne].
    + by rewrite lookup_insert_eq, Ha.
    + by rewrite lookup_insert_ne.
  - destruct (decide (i = a)) as [->|Hne]; [by rewrite Ha|done].
Qed.

Lemma grip_row_at p a i :
  row_at (Sorter.grip a p) i
  = if decide (i = a) then grip_once <$> row_at p i else row_at p i.
Proof.
  unfold Sorter.grip. destruct (row_at p a) as [x|] eqn:Ha.
  - destruct (hasHandle x) eqn:Hx.
    + destruct (decide (i = a)) as [->|]; [|done].
      rewrite Ha. simpl. unfold grip_once. by rewrite Hx.
    + rewrite row_at_update. destruct (decide (i = a)) as [->|]; [|done].
      rewrite Ha. simpl. unfold grip_once. by rewrite Hx.
  - destruct (decide (i = a)) as [->|]; [by rewrite Ha|done].
Qed.

Lemma grip_once_twice r : grip_once (grip_once r) = grip_once r.
Proof. unfold grip_once. by destruct (hasHandle r) eqn:H; rewrite ?H. Qed.

Lemma gripped_row_at l p i :
  row_at (gripped p l) i
  = if decide (i ∈ l) then grip_once <$> row_at p i else row_at p i.
Proof.
  revert p. induction l as [|a l IH]; intros p.
  - rewrite decide_False; [done|apply not_elem_of_nil].
  - unfold gripped in *. simpl. rewrite IH, grip_row_at.
    destruct (decide (i = a)) as [->|Hne].
    + rewrite (decide_True (P := a ∈ a :: l)) by left.
      destruct (decide (a ∈ l)); [|done].
      destruct (row_at p a); [|done]. simpl. by rewrite grip_once_twice.
    + destruct (decide (i ∈ l)) as [Hi|Hi].
      * rewrite decide_True; [done|by right].
      * rewrite decide_False; [done|]. by intros [?|?]%elem_of_cons.
Qed.

Lemma grip_heap_only p a : ∃ h, Sorter.grip a p = with_heap h p.
Proof.
  unfold Sorter.grip, update_row. destruct (row_at p a) as [x|].
  - destruct (hasHandle x); [|by eexists]. exists (heap p). by destruct p.
  - exists (heap p). by destruct p.
Qed.

Lemma gripped_heap_only l p : ∃ h, gripped p l = with_heap h p.
Proof.
  revert p. induction l as [|a l IH]; intros p.
  - exists (heap p). by destruct p.
  - unfold gripped in *. simpl. destruct (grip_heap_only p a) as [h ->].
    destruct (IH (with_heap h p)) as [h' ->]. by exists h'.
Qed.

Lemma gripped_rows l p : rows (gripped p l) = rows p.
Proof.
  destruct (gripped_heap_only l p) as [h Hh].
  unfold rows. assert (children (gripped p l) = children p) as -> by by rewrite Hh.
  apply filter_agree. intros i _. unfold is_row.
  rewrite !bool_decide_spec, gripped_row_at.
  destruct (decide (i ∈ l)); [|done]. by rewrite fmap_is_Some.
Qed.
End attach.

Section attach_claims.
Implicit Types (p : page).

Lemma applySaved_rows_in p p' i :
  Sorter.applySaved p = Ok p' → i ∈ rows p' → i ∈ rows p.
Proof.
  intros (T & HT & ->)%applySaved_moves. rewrite rows_moved by done.
  rewrite elem_of_app, list_elem_of_filter, elem_of_remove_dups.
  intros [[_ ?]|?]; auto.
Qed.

(** Claim C5, as the code has it.  Take a list that is not yet attached,
    whose rows carry no handle, and let the first run of the attach path
    complete.  Then every row has one handle if it has a content wrapper
    and none otherwise, the saved order has been applied by that first
    run, and a second run changes nothing, whatever the store holds by
    then: no second handle and no second move of rows. *)
Theorem attach_twice p p1 :
  sortAttach p = false →
  (∀ i r, i ∈ rows p → row_at p i = Some r → hasHandle r = false ∧ handles r = 0) →
  Sorter.watch p = (p1, None) →
  (∀ i, i ∈ rows p1 →
     ∃ r, row_at p1 i = Some r ∧ handles r = if wrap r then 1 else 0)
  ∧ (∃ p2, Sorter.applySaved (with_sortAttach true p) = Ok p2
           ∧ children p1 = children p2)
  ∧ (∀ store, Sorter.watch (with_localStorage store p1)
              = (with_localStorage store p1, None))
  ∧ Sorter.watch p1 = (p1, None).
Proof.
  intros Hflag Hfresh Hw. unfold Sorter.watch in Hw. rewrite Hflag in Hw.
  unfold Sorter.init in Hw.
  destruct (Sorter.applySaved (with_sortAttach true p)) as [p2|err] eqn:Hp2; [|done].
  injection Hw as <-. fold (gripped p2 (rows p2)).
  destruct (gripped_heap_only (rows p2) p2) as [h Hh].
  pose proof Hp2 as (T & HT & Hmoved)%applySaved_moves.
  assert (sortAttach (gripped p2 (rows p2)) = true) as Hset.
  { rewrite Hh, Hmoved. done. }
  split; [|split; [|split]].
  - intros i Hi. rewrite gripped_rows in Hi. rewrite gripped_row_at, decide_True by done.
    pose proof (applySaved_rows_in _ _ _ Hp2 Hi) as Hip.
    change (rows (with_sortAttach true p)) with (rows p) in Hip.
    assert (row_at p2 i = row_at p i) as -> by (by rewrite Hmoved).
    pose proof Hip as Hrow. unfold rows in Hrow.
    apply list_elem_of_filter in Hrow as [Hrow _].
    apply bool_decide_unpack in Hrow as [r Hr].
    destruct (Hfresh i r Hip Hr) as [Hno Hzero].
    rewrite Hr. simpl. eexists. split; [done|].
    unfold grip_once. rewrite Hno. simpl. rewrite Hzero. by destruct (wrap r).
  - exists p2. split; [done|]. by rewrite Hh.
  - intros store. unfold Sorter.watch. simpl. by rewrite Hset.
  - unfold Sorter.watch. by rewrite Hset.
Qed.

(** C5 fails as stated: a row without the content wrapper is left with no
    handle at all after the attach path has run twice. *)
Lemma attach_twice_no_wrapper :
  handles <$> row_at (Sorter.watch (Sorter.watch bare_page).1).1 0 = Some 0.
Proof. vm_compute. reflexivity. Qed.
End attach_claims.

(** * Inserting next to a row *)

Section inserts.
Implicit Types (ch l : list nat) (el t : nat).

Lemma detach_cons el x l :
  detach el (x :: l) = if decide (x = el) then detach el l else x :: detach el l.
Proof.
  unfold detach. rewrite filter_cons.
  destruct (decide (x ≠ el)), (decide (x = el)); done.
Qed.

Lemma detach_self el l : detach el (el :: l) = detach el l.
Proof. by rewrite detach_cons, decide_True. Qed.

Lemma detach_insert_before el t l : detach el (insert_before t el l) = detach el l.
Proof.
  induction l as [|x l IH]; [done|]. simpl. destruct (decide (x = t)).
  - by rewrite detach_self.
  - by rewrite !(detach_cons el x), IH.
Qed.

Lemma detach_insert_after el t l : detach el (insert_after t el l) = detach el l.
Proof.
  induction l as [|x l IH]; [done|]. simpl. destruct (decide (x = t)).
  - by rewrite !(detach_cons el x), detach_self.
  - by rewrite !(detach_cons el x), IH.
Qed.

Lemma detach_twice el l : detach el (detach el l) = detach el l.
Proof. unfold detach. rewrite list_filter_filter. apply list_filter_iff. tauto. Qed.

Lemma detach_before el t ch : detach el (before t el ch) = detach el ch.
Proof.
  unfold before. case_decide; [|done]. by rewrite detach_insert_before, detach_twice.
Qed.

Lemma detach_after el t ch : detach el (after t el ch) = detach el ch.
Proof.
  unfold after. case_decide; [|done]. by rewrite detach_insert_after, detach_twice.
Qed.

Lemma insert_before_split el t l :
  t ∈ l → ∃ l1 l2, l = l1 ++ t :: l2 ∧ (t ∉ l1)
                   ∧ insert_before t el l = l1 ++ el :: t :: l2.
Proof.
  induction l as [|x l IH]; intros Hin; [by apply elem_of_nil in Hin|].
  simpl. destruct (decide (x = t)) as [->|Hne].
  - exists [], l. split; [done|]. split; [apply not_elem_of_nil|done].
  - apply elem_of_cons in Hin as [->|Hin]; [done|].
    destruct (IH Hin) as (l1 & l2 & -> & Hl1 & ->).
    exists (x :: l1), l2. split; [done|]. split; [|done].
    rewrite not_elem_of_cons. split; [congruence|done].
Qed.

Lemma insert_after_split el t l :
  t ∈ l → ∃ l1 l2, l = l1 ++ t :: l2 ∧ (t ∉ l1)
                   ∧ insert_after t el l = l1 ++ t :: el :: l2.
Proof.
  induction l as [|x l IH]; intros Hin; [by apply elem_of_nil in Hin|].
  simpl. destruct (decide (x = t)) as [->|Hne].
  - exists [], l. split; [done|]. split; [apply not_elem_of_nil|done].
  - apply elem_of_cons in Hin as [->|Hin]; [done|].
    destruct (IH Hin) as (l1 & l2 & -> & Hl1 & ->).
    exists (x :: l1), l2. split; [done|]. split; [|done].
    rewrite not_elem_of_cons. split; [congruence|done].
Qed.

Lemma elem_of_detach el x l : x ∈ detach el l ↔ x ≠ el ∧ x ∈ l.
Proof. unfold detach. by rewrite list_elem_of_filter. Qed.

Lemma before_perm el t ch :
  t ∈ ch → t ≠ el → before t el ch ≡ₚ el :: detach el ch.
Proof.
  intros Hin Hne. unfold before. rewrite decide_True by done.
  destruct (insert_before_split el t (detach el ch)) as (l1 & l2 & Hl & _ & ->).
  { by apply elem_of_detach. }
  rewrite Hl. by rewrite Permutation_middle.
Qed.

Lemma after_perm el t ch :
  t ∈ ch → t ≠ el → after t el ch ≡ₚ el :: detach el ch.
Proof.
  intros Hin Hne. unfold after. rewrite decide_True by done.
  destruct (insert_after_split el t (detach el ch)) as (l1 & l2 & Hl & _ & ->).
  { by apply elem_of_detach. }
  rewrite Hl. rewrite (Permutation_middle l1 (t :: l2) el).
  apply Permutation_app_head. apply perm_swap.
Qed.
End inserts.

Section move_shape.
Implicit Types (p : page) (d : session) (e : PointerEvent) (v : layout).

Lemma update_row_heap_only p a f : ∃ h, update_row a f p = with_heap h p.
Proof.
  unfold update_row. destruct (row_at p a); [by eexists|].
  exists (heap p). by destruct p.
Qed.

Lemma is_row_update p a f i : is_row (update_row a f p) i = is_row p i.
Proof.
  unfold is_row. apply bool_decide_ext. rewrite row_at_update.
  destruct (decide (i = a)); [|done]. by rewrite fmap_is_Some.
Qed.

Lemma is_placeholder_update p a f i :
  is_placeholder (update_row a f p) i = is_placeholder p i.
Proof.
  unfold update_row. destruct (row_at p a) as [x|] eqn:Ha; [|done].
  unfold is_placeholder. simpl. destruct (decide (i = a)) as [->|Hne].
  - rewrite lookup_insert_eq. unfold row_at in Ha.
    by destruct (heap p !! a) as [[]|].
  - by rewrite lookup_insert_ne.
Qed.

Lemma rows_update p a f : rows (update_row a f p) = rows p.
Proof.
  unfold rows. destruct (update_row_heap_only p a f) as [h Hh].
  assert (children (update_row a f p) = children p) as -> by by rewrite Hh.
  apply list_filter_iff. intros i. by rewrite is_row_update.
Qed.

Lemma autoscroll_scroll_only e d r p :
  ∃ s, Sorter.autoscroll e d r p = with_scrollTop s p.
Proof.
  unfold Sorter.autoscroll, set_scrollTop.
  destruct (Qlt_bool _ _); [by eexists|].
  destruct (Qlt_bool _ _); [by eexists|].
  exists (scrollTop p). by destruct p.
Qed.

Lemma move_fields e v p d :
  drag p = Some d →
  ∃ p', Sorter.move e v p = Ok p'
    ∧ children p' = placed e v d p
    ∧ heap p' = heap (update_row (drag_row d) (Sorter.follow e d) p)
    ∧ (scrollTop p', scrollMax p')
      = match Sorter.target e v d p with
        | Some _ => reflow v (scrollTop (Sorter.autoscroll e d (list_rect v) p))
                             (scrollMax p)
        | None => (scrollTop (Sorter.autoscroll e d (list_rect v) p), scrollMax p)
        end
    ∧ localStorage p' = localStorage p
    ∧ drag p' = Some d
    ∧ sortAttach p' = sortAttach p
    ∧ onpointermove p' = onpointermove p
    ∧ onpointerup p' = onpointerup p
    ∧ next p' = next p.
Proof.
  intros Hd. unfold Sorter.move. rewrite Hd. eexists. split; [done|].
  set (p1 := update_row (drag_row d) (Sorter.follow e d) p).
  destruct (update_row_heap_only p (drag_row d) (Sorter.follow e d)) as [h Hh].
  fold p1 in Hh.
  destruct (autoscroll_scroll_only e d (list_rect v) p1) as [s Hs].
  assert (Sorter.target e v d (Sorter.autoscroll e d (list_rect v) p1)
          = Sorter.target e v d p) as Ht.
  { unfold Sorter.target, Sorter.candidates. rewrite Hs.
    change (rows (with_scrollTop s p1)) with (rows p1).
    unfold p1. by rewrite rows_update. }
  assert (scrollTop (Sorter.autoscroll e d (list_rect v) p1)
          = scrollTop (Sorter.autoscroll e d (list_rect v) p)) as Hsc.
  { unfold Sorter.autoscroll, set_scrollTop. rewrite Hh. simpl.
    by repeat destruct (Qlt_bool _ _). }
  unfold Sorter.reposition, placed. rewrite Ht. rewrite <- Hsc.
  destruct (Sorter.target e v d p) as [item|].
  - unfold settle.
    destruct (Sorter.upper_half e (rect_of v item));
      simpl; rewrite Hs, Hh; simpl; rewrite ?Hd;
      by destruct (reflow v s (scrollMax p)).
  - rewrite Hs, Hh. simpl. by rewrite ?Hd.
Qed.
End move_shape.

Section Qtests.
Lemma Qlt_bool_iff x y : Qlt_bool x y = true ↔ (x < y)%Q.
Proof.
  unfold Qlt_bool. rewrite negb_true_iff, <- not_true_iff_false, Qle_bool_iff.
  split; [apply Qnot_le_lt|apply Qlt_not_le].
Qed.

Lemma clamp_inside lo hi x : (lo < x)%Q → (x < hi)%Q → clamp lo hi x = x.
Proof.
  intros Hlo Hhi. unfold clamp.
  destruct (Qle_bool x lo) eqn:H1.
  - apply Qle_bool_iff in H1. by apply Qlt_not_le in Hlo.
  - destruct (Qle_bool hi x) eqn:H2; [|done].
    apply Qle_bool_iff in H2. by apply Qlt_not_le in Hhi.
Qed.
Lemma clamp_low lo hi x : (x <= lo)%Q → clamp lo hi x = lo.
Proof.
  intros H. unfold clamp. apply Qle_bool_iff in H. by rewrite H.
Qed.

Lemma clamp_high lo hi x : (lo < x)%Q → (hi <= x)%Q → clamp lo hi x = hi.
Proof.
  intros Hlo Hhi. unfold clamp. destruct (Qle_bool x lo) eqn:H1.
  - apply Qle_bool_iff in H1. by apply Qlt_not_le in Hlo.
  - apply Qle_bool_iff in Hhi. by rewrite Hhi.
Qed.
End Qtests.

Lemma find_first {A} (f : A → bool) (l : list A) x :
  find f l = Some x →
  ∃ l1 l2, l = l1 ++ x :: l2 ∧ f x = true ∧ ∀ y, y ∈ l1 → f y = false.
Proof.
  induction l as [|a l IH]; [done|]. simpl. destruct (f a) eqn:Ha.
  - intros [= ->]. exists [], l. split; [done|]. split; [done|].
    by intros y ?%elem_of_nil.
  - intros (l1 & l2 & -> & Hx & Hl1)%IH. exists (a :: l1), l2.
    split; [done|]. split; [done|]. intros y [->|?]%elem_of_cons; auto.
Qed.

Lemma find_nothing {A} (f : A → bool) (l : list A) :
  find f l = None ↔ ∀ y, y ∈ l → f y = false.
Proof.
  induction l as [|a l IH]; simpl.
  - split; [by intros _ y ?%elem_of_nil|done].
  - destruct (f a) eqn:Ha.
    + split; [done|]. intros H. rewrite H in Ha; [done|left].
    + rewrite IH. split.
      * intros H y [->|?]%elem_of_cons; auto.
      * intros H y Hy. apply H. by right.
Qed.

Section placement.
Implicit Types (p : page) (d : session) (e : PointerEvent) (v : layout).

Lemma candidate_row d p item :
  item ∈ Sorter.candidates d p →
  item ≠ drag_row d ∧ is_row p item ∧ item ∈ children p.
Proof.
  unfold Sorter.candidates, rows. rewrite !list_elem_of_filter. tauto.
Qed.

Lemma candidate_iff d p item :
  item ∈ Sorter.candidates d p ↔
  item ≠ drag_row d ∧ item ∈ rows p.
Proof.
  unfold Sorter.candidates. rewrite list_elem_of_filter. tauto.
Qed.


Lemma contains_iff e ir :
  Sorter.contains e ir = true
  ↔ (rect_top ir < clientY e)%Q ∧ (clientY e < rect_bottom ir)%Q.
Proof.
  unfold Sorter.contains. by rewrite andb_true_iff, !Qlt_bool_iff.
Qed.

Lemma contains_not e ir :
  Sorter.contains e ir = false
  ↔ ¬ ((rect_top ir < clientY e)%Q ∧ (clientY e < rect_bottom ir)%Q).
Proof. rewrite <- contains_iff. by destruct (Sorter.contains e ir). Qed.



Lemma target_none e v d p :
  Sorter.target e v d p = None
  ↔ ∀ item, item ∈ rows p → item ≠ drag_row d →
      ¬ ((rect_top (rect_of v item) < clientY e)%Q
         ∧ (clientY e < rect_bottom (rect_of v item))%Q).
Proof.
  unfold Sorter.target. rewrite find_nothing. split.
  - intros H item Hi Hne. apply contains_not, H. by apply candidate_iff.
  - intros H item [Hne Hi]%candidate_iff. by apply contains_not, H.
Qed.

(** Claim C4, as the code has it.  On a move event of a drag the scroll
    offset is assigned at most once, before the rows are looked at: when
    the pointer is above [top + margin] of the list box, the offset less
    the margin; otherwise, when the pointer is below [bottom - margin], the
    offset plus the margin; otherwise nothing.  The sums and differences
    are the code's, rounded to binary64; the test on the top is made
    first; and the host keeps the assigned value within the scrollable
    range: 0 for a value that is not positive, the end of the range for a
    value at or beyond it, the value itself in between.  With [s] the
    offset after that step: when no row other than the dragged one holds
    the pointer, the offset after the event is [s] and the range is as it
    was; when some row does, the placeholder is moved, the host lays the
    list out again, and the offset and the range after the event are what
    the host arrives at from [s] and the range before. *)
Theorem autoscroll_rule e v p d :
  drag p = Some d →
  let y := clientY e in
  let r := list_rect v in
  let hit item :=
    item ∈ rows p ∧ item ≠ drag_row d
    ∧ (rect_top (rect_of v item) < y)%Q ∧ (y < rect_bottom (rect_of v item))%Q in
  ∃ p' s, Sorter.move e v p = Ok p' ∧
    ((y < fl (rect_top r + edge d))%Q →
       s = clamp 0 (scrollMax p) (fl (scrollTop p - edge d))) ∧
    (¬ (y < fl (rect_top r + edge d))%Q → (fl (rect_bottom r - edge d) < y)%Q →
       s = clamp 0 (scrollMax p) (fl (scrollTop p + edge d))) ∧
    (¬ (y < fl (rect_top r + edge d))%Q → ¬ (fl (rect_bottom r - edge d) < y)%Q →
       s = scrollTop p) ∧
    (∀ x, (x <= 0)%Q → clamp 0 (scrollMax p) x = 0%Q) ∧
    (∀ x, (0 < x)%Q → (scrollMax p <= x)%Q → clamp 0 (scrollMax p) x = scrollMax p) ∧
    (∀ x, (0 < x)%Q → (x < scrollMax p)%Q → clamp 0 (scrollMax p) x = x) ∧
    ((∀ item, ¬ hit item) → scrollTop p' = s ∧ scrollMax p' = scrollMax p) ∧
    (∀ item, hit item → (scrollTop p', scrollMax p') = reflow v s (scrollMax p)).
Proof.
  intros Hd y r hit.
  destruct (move_fields e v p d Hd) as (p' & Hm & _ & _ & Hs & _).
  exists p', (scrollTop (Sorter.autoscroll e d (list_rect v) p)).
  split; [done|].
  assert (((y < fl (rect_top r + edge d))%Q →
             scrollTop (Sorter.autoscroll e d (list_rect v) p)
             = clamp 0 (scrollMax p) (fl (scrollTop p - edge d))) ∧
          (¬ (y < fl (rect_top r + edge d))%Q → (fl (rect_bottom r - edge d) < y)%Q →
             scrollTop (Sorter.autoscroll e d (list_rect v) p)
             = clamp 0 (scrollMax p) (fl (scrollTop p + edge d))) ∧
          (¬ (y < fl (rect_top r + edge d))%Q → ¬ (fl (rect_bottom r - edge d) < y)%Q →
             scrollTop (Sorter.autoscroll e d (list_rect v) p) = scrollTop p))
    as (H1 & H2 & H3).
  { unfold Sorter.autoscroll. fold r y. rewrite <- !Qlt_bool_iff.
    destruct (Qlt_bool y _); [|destruct (Qlt_bool _ y)];
      (split; [|split]); try done.
    all: intros H; by destruct H. }
  split; [done|]. split; [done|]. split; [done|].
  split; [intros; by apply clamp_low|].
  split; [intros; by apply clamp_high|].
  split; [intros; by apply clamp_inside|].
  split.
  - intros Hnone.
    assert (Sorter.target e v d p = None) as Ht.
    { apply target_none. intros item Hi Hne [Ha Hb]. by apply (Hnone item). }
    rewrite Ht in Hs. by injection Hs.
  - intros item (Hi & Hne & Ha & Hb).
    destruct (Sorter.target e v d p) eqn:Ht; [done|].
    exfalso. rewrite target_none in Ht. by apply (Ht item).
Qed.

(** Claim C10 (frame of a move).  A move event of a drag leaves the store
    as it was, leaves the elements of the list other than the placeholder
    in their order, leaves every element object other than the dragged row
    untouched, changes of the dragged row only the inline [left] and [top],
    and leaves the session, the attach flag and the handlers as they were.
    What else may change is the scroll offset, and the scrollable range
    when the placeholder is moved. *)
Theorem move_frame e v p d :
  drag p = Some d →
  ∃ p', Sorter.move e v p = Ok p' ∧
    localStorage p' = localStorage p ∧
    detach (drag_ph d) (children p') = detach (drag_ph d) (children p) ∧
    (∀ i, i ≠ drag_row d → heap p' !! i = heap p !! i) ∧
    (∀ r, row_at p (drag_row d) = Some r →
       ∃ r', row_at p' (drag_row d) = Some r' ∧
             truncate r' = truncate r ∧ wrap r' = wrap r ∧
             hasHandle r' = hasHandle r ∧ handles r' = handles r ∧
             dragging r' = dragging r ∧
             width (inline r') = width (inline r) ∧
             position (inline r') = position (inline r) ∧
             zIndex (inline r') = zIndex (inline r) ∧
             pointerEvents (inline r') = pointerEvents (inline r) ∧
             left (inline r') = px (fl (clientX e - offX d)) ∧
             top (inline r') = px (fl (clientY e - offY d))) ∧
    drag p' = drag p ∧ sortAttach p' = sortAttach p ∧
    onpointermove p' = onpointermove p ∧ onpointerup p' = onpointerup p ∧
    (Sorter.target e v d p = None → scrollMax p' = scrollMax p) ∧
    next p' = next p.
Proof.
  intros Hd.
  destruct (move_fields e v p d Hd)
    as (p' & Hm & Hch & Hh & Hsc & Hst & Hdr & Hsa & Hpm & Hpu & Hnx).
  assert (Sorter.target e v d p = None → scrollMax p' = scrollMax p) as Hmax.
  { intros Ht. rewrite Ht in Hsc. by injection Hsc. }
  exists p'. split; [done|]. split; [done|]. split; [|split; [|split]].
  - rewrite Hch. unfold placed. destruct (Sorter.target e v d p) as [item|]; [|done].
    destruct (Sorter.upper_half _ _); [apply detach_before|apply detach_after].
  - intros i Hi. rewrite Hh. unfold update_row.
    destruct (row_at p (drag_row d)); [|done]. simpl. by rewrite lookup_insert_ne.
  - intros r Hr. exists (Sorter.follow e d r). split; [|done].
    unfold row_at. rewrite Hh. unfold update_row. rewrite Hr. simpl.
    by rewrite lookup_insert_eq.
  - by rewrite Hdr, Hd.
Qed.
End placement.

Section session.
Implicit Types (p : page) (d : session) (e : PointerEvent) (v : layout).

Lemma detach_absent el l : el ∉ l → detach el l = l.
Proof. intros H. apply filter_all. intros x Hx ->. done. Qed.

Lemma filter_detach (P : nat → Prop) `{!∀ x, Decision (P x)} el l :
  filter P (detach el l) = detach el (filter P l).
Proof.
  unfold detach. rewrite !list_filter_filter. apply list_filter_iff. tauto.
Qed.

(** Moving the one placeholder of a list keeps it the one placeholder. *)
Lemma one_placeholder (P : nat → Prop) `{!∀ x, Decision (P x)} ph ch ch' :
  P ph → filter P ch = [ph] ∨ (filter P ch = [] ∧ ph ∉ ch) →
  ch' ≡ₚ ph :: detach ph ch → filter P ch' = [ph].
Proof.
  intros Hph Hone Hperm. apply Permutation_singleton_r.
  rewrite Hperm, filter_cons_True by done. rewrite filter_detach.
  destruct Hone as [->| [-> _]]; [|done].
  by rewrite detach_self.
Qed.

Lemma kinds_disjoint p i : is_placeholder p i = true → is_row p i = false.
Proof.
  unfold is_placeholder, is_row, row_at. destruct (heap p !! i) as [[]|]; done.
Qed.

Lemma move_in_session e v p d :
  in_session d p → ∃ p', Sorter.move e v p = Ok p' ∧ in_session d p'.
Proof.
  intros (Hd & Hph & Hone).
  destruct (move_fields e v p d Hd) as (p' & Hm & Hch & Hh & _ & _ & Hdr & _).
  exists p'. split; [done|].
  assert (∀ i, is_placeholder p' i = is_placeholder p i) as Hkind.
  { intros i. unfold is_placeholder at 1. rewrite Hh.
    apply (is_placeholder_update p (drag_row d) (Sorter.follow e d) i). }
  split; [done|]. split; [by rewrite Hkind|].
  unfold placeholders. rewrite Hch.
  rewrite (list_filter_iff _ (λ i, is_placeholder p i)) by (intros i; by rewrite Hkind).
  unfold placed, Sorter.target.
  destruct (find _ (Sorter.candidates d p)) as [hit|] eqn:Hf; [|done].
  apply find_first in Hf as (c1 & c2 & Hc & _ & _).
  assert (hit ∈ Sorter.candidates d p) as Hcand.
  { rewrite Hc. apply elem_of_app. right. left. }
  apply candidate_row in Hcand as (_ & Hrow & Hchild).
  assert (hit ≠ drag_ph d) as Hneph.
  { intros ->. apply kinds_disjoint in Hph. rewrite Hph in Hrow. done. }
  apply (one_placeholder _ _ (children p)); [by rewrite Hph|by left|].
  destruct (Sorter.upper_half _ _); [by apply before_perm|by apply after_perm].
Qed.

Lemma moves_in_session evs p d :
  in_session d p → ∃ p', moves evs p = Ok p' ∧ in_session d p'.
Proof.
  revert p. induction evs as [|[e v] evs IH]; intros p Hin; [by exists p|].
  destruct (move_in_session e v p d Hin) as (p1 & Hm & Hin1).
  destruct (IH p1 Hin1) as (p' & Hms & Hin'). exists p'. split; [|done].
  simpl. by rewrite Hm.
Qed.

Lemma down_kinds e rect r p i :
  is_placeholder (Sorter.down e rect r p) i
  = if decide (i = next p) then true else is_placeholder p i.
Proof.
  unfold Sorter.down.
  set (p2 := with_children _ _).
  transitivity (is_placeholder (update_row r (Sorter.pick_up rect) p2) i); [done|].
  rewrite is_placeholder_update. unfold is_placeholder. simpl.
  destruct (decide (i = next p)) as [->|Hi].
  - by rewrite lookup_insert_eq.
  - by rewrite lookup_insert_ne.
Qed.

Lemma down_children e rect r p :
  children (Sorter.down e rect r p) = before r (next p) (children p).
Proof.
  unfold Sorter.down. set (p2 := with_children _ _).
  destruct (update_row_heap_only p2 r (Sorter.pick_up rect)) as [h Hh].
  simpl. by rewrite Hh.
Qed.

Lemma down_in_session e rect r p :
  placeholders p = [] → r ∈ rows p → next p ∉ children p →
  in_session (Session r (next p) (fl (clientX e - rect_left rect))
                      (fl (clientY e - rect_top rect)) CONFIG.edgeDistance)
             (Sorter.down e rect r p).
Proof.
  intros Hnone Hr Hfresh.
  assert (r ∈ children p) as Hrch.
  { unfold rows in Hr. apply list_elem_of_filter in Hr. tauto. }
  assert (r ≠ next p) as Hne by (intros ->; done).
  split; [done|]. split.
  - simpl. by rewrite down_kinds, decide_True.
  - unfold placeholders. rewrite down_children.
    rewrite (list_filter_iff _ (λ i, i = next p ∨ is_placeholder p i)).
    2:{ intros i. rewrite down_kinds. destruct (decide (i = next p)); [split; [by left|done]|].
        split; [by right|by intros [?|?]]. }
    apply (one_placeholder _ _ (children p)).
    + by left.
    + right. split; [|done]. rewrite <- Hnone. unfold placeholders.
      apply filter_agree. intros i Hi. split; [|by right].
      intros [->|?]; done.
    + by apply before_perm.
Qed.

(** One press in a session.  Start from a list without placeholder and
    pick up one of its rows; the identity of the element created next is
    not in use.  After the pointer-down and after any run of move events
    the list holds exactly one placeholder, the one of the session, and
    the dragged row is not among the candidate rows of a move, so that it
    is never the row next to which the placeholder is put.  A second
    press before the release is another matter, shown further down on
    the rows [A; B; C]. *)
Theorem drag_session_invariant e rect r p evs :
  placeholders p = [] → r ∈ rows p → next p ∉ children p →
  ∃ p' d, moves evs (Sorter.down e rect r p) = Ok p' ∧
    drag p' = Some d ∧ drag_row d = r ∧
    placeholders p' = [drag_ph d] ∧
    (r ∉ Sorter.candidates d p') ∧
    (∀ e' v', Sorter.target e' v' d p' ≠ Some r).
Proof.
  intros Hnone Hr Hfresh.
  pose proof (down_in_session e rect r p Hnone Hr Hfresh) as Hin.
  destruct (moves_in_session evs _ _ Hin) as (p' & Hms & Hd & _ & Hone).
  eexists p', _. split; [done|]. split; [done|]. split; [done|]. split; [done|].
  assert (r ∉ Sorter.candidates
            (Session r (next p) (fl (clientX e - rect_left rect))
               (fl (clientY e - rect_top rect)) CONFIG.edgeDistance) p') as Hnot.
  { unfold Sorter.candidates. rewrite list_elem_of_filter. simpl. tauto. }
  split; [done|]. intros e' v' Ht. apply Hnot. unfold Sorter.target in Ht.
  apply find_first in Ht as (c1 & c2 & -> & _). apply elem_of_app. right. left.
Qed.
End session.

(** * Releasing the row *)

Section drop.
Implicit Types (p : page) (d : session).

Lemma swap_absent (old new : nat) (l : list nat) :
  old ∉ l → (λ i, if decide (i = old) then new else i) <$> l = l.
Proof.
  induction l as [|x l IH]; [done|]. rewrite not_elem_of_cons. intros [Hx Hl].
  rewrite fmap_cons, IH by done. rewrite decide_False by done. done.
Qed.

(** The row lands where the placeholder was. *)
Lemma replaceWith_position (ph r : nat) (l1 l2 : list nat) :
  NoDup (l1 ++ ph :: l2) → r ≠ ph →
  replaceWith ph r (l1 ++ ph :: l2) = detach r l1 ++ r :: detach r l2.
Proof.
  intros Hnd Hne. apply NoDup_app in Hnd as (_ & Hl1 & Hl2).
  apply NoDup_cons in Hl2 as [Hl2 _].
  unfold replaceWith. rewrite decide_True.
  2:{ split; [|done]. apply elem_of_app. right. left. }
  rewrite detach_app, detach_cons, decide_False by done.
  rewrite fmap_app, fmap_cons, decide_True by done.
  rewrite !swap_absent; [done|..].
  - rewrite elem_of_detach. tauto.
  - rewrite elem_of_detach. intros [_ Hin]. apply (Hl1 ph Hin). left.
Qed.

Lemma up_effect p d :
  drag p = Some d →
  ∃ p', Sorter.up p = Ok p' ∧
    children p' = replaceWith (drag_ph d) (drag_row d) (children p) ∧
    (∀ r, row_at p (drag_row d) = Some r →
          row_at p' (drag_row d) = Some (Sorter.put_down r)) ∧
    localStorage p'
      = Store.save CONFIG.STORAGE_KEY (Sorter.order p') (localStorage p) ∧
    drag p' = None ∧ onpointermove p' = false ∧ onpointerup p' = false.
Proof.
  intros Hd. unfold Sorter.up. rewrite Hd. eexists. split; [done|].
  set (p1 := with_children _ p).
  destruct (update_row_heap_only p1 (drag_row d) Sorter.put_down) as [h Hh].
  split; [|split; [|split]].
  - simpl. by rewrite Hh.
  - intros r Hr. change (row_at _ (drag_row d)) with
      (row_at (update_row (drag_row d) Sorter.put_down p1) (drag_row d)).
    rewrite row_at_update, decide_True by done.
    change (row_at p1 (drag_row d)) with (row_at p (drag_row d)). by rewrite Hr.
  - unfold Sorter.save. simpl. rewrite Hh. done.
  - done.
Qed.
End drop.

Section evaluations.
(** Claim C2, on a store whose item is not JSON: the restore raises
    [SyntaxError], the attach path that called it ends with that error,
    and the rows are left without handles. *)
Theorem corrupt_store_raises :
  Sorter.applySaved corrupt_page = Raise SyntaxError
  ∧ (Sorter.watch corrupt_page).2 = Some SyntaxError
  ∧ handles <$> row_at (Sorter.watch corrupt_page).1 0 = Some 0.
Proof. vm_compute. done. Qed.

(** C3 fails as stated: with ["X"; "A"] saved and the rows [A; B], the
    restore leaves [B; A], not [A; B]. *)
Lemma restore_XA_counterexample :
  names <$> after_ok (Sorter.applySaved page_XA) = Some [Some "B"; Some "A"]
  ∧ names <$> after_ok (Sorter.applySaved page_XA) ≠ Some [Some "A"; Some "B"].
Proof. split; [by vm_compute|]. vm_compute. intros [=]. Qed.

(** C4 fails as stated.  In a list 72 pixels high, with a margin of 40, a
    pointer at 36 is within the margin of the bottom bound, and the offset
    goes from 100 to 60 instead of 140; and at offset 0 a pointer near the
    top leaves the offset at 0. *)
Lemma autoscroll_counterexample :
  (rect_bottom (list_rect short_view) - edge (Session 0 2 5 5 CONFIG.edgeDistance)
     < clientY (Pointer 10 36))%Q
  ∧ drag short_list = Some (Session 0 2 5 5 CONFIG.edgeDistance)
  ∧ scrollTop short_list = 100%Q
  ∧ scrollTop <$> after_ok (Sorter.move (Pointer 10 36) short_view short_list)
    = Some 60%Q
  ∧ scrollTop <$> after_ok (Sorter.move (Pointer 10 36) short_view
                              (with_scrollTop 0 short_list))
    = Some 0%Q.
Proof. vm_compute. done. Qed.


(** Claim C6, on a second press before the release.  With row A of
    [A; B; C] held, a press on the handle of row B puts a second
    placeholder in the list: between that press and the release the list
    holds two placeholders.  The release replaces the second one only: the
    first stays in the list, and row A stays as it was picked up, fixed
    and marked as dragged, with no session left to release it. *)
Theorem second_press_two_placeholders :
  placeholders dragging_A = [3]
  ∧ drag dragging_A = Some session_A
  ∧ children pressed_twice = [3; 0; 4; 1; 2]
  ∧ placeholders pressed_twice = [3; 4]
  ∧ drag pressed_twice = Some (Session 1 4 5 5 CONFIG.edgeDistance)
  ∧ (children <$> after_ok (Sorter.up pressed_twice)) = Some [3; 0; 1; 2]
  ∧ (placeholders <$> after_ok (Sorter.up pressed_twice)) = Some [3]
  ∧ (drag <$> after_ok (Sorter.up pressed_twice)) = Some None
  ∧ (after_ok (Sorter.up pressed_twice)
       ≫= λ p, (λ r, (position (inline r), dragging r)) <$> row_at p 0)
    = Some (keyword "fixed", true).
Proof. vm_compute. done. Qed.

(** The rounding of the code on values that are known: 0.1 and 0.1 + 0.2,
    a tie that goes to the even significand, the least binary64, and a
    value beyond the largest one. *)
Example binary64_values :
  binary64 (1 # 10) = Some (3602879701896397 # 36028797018963968)
  ∧ fl (fl (1 # 10) + fl (2 # 10)) = (1351079888211149 # 4503599627370496)
  ∧ fl (fl (53 # 10) - fl (fl (53 # 10) - fl (1 # 10)))
    = (56294995342131 # 562949953421312)
  ∧ binary64 (inject_Z (2 ^ 53 + 1)) = Some (inject_Z (2 ^ 53))
  ∧ binary64 (inject_Z (2 ^ 53 + 3)) = Some (inject_Z (2 ^ 53 + 4))
  ∧ binary64 (1 # 2 ^ 1074) = Some (1 # 2 ^ 1074)
  ∧ binary64 (1 # 2 ^ 1075) = Some 0%Q
  ∧ binary64 (inject_Z (2 ^ 1024 - 2 ^ 971)) = Some (inject_Z (2 ^ 1024 - 2 ^ 971))
  ∧ binary64 (inject_Z (2 ^ 1024 - 2 ^ 970)) = None
  ∧ binary64 (inject_Z (10 ^ 400)) = None
  ∧ fl 60 = 60%Q.
Proof. vm_compute. done. Qed.

(** The bottom that a box reports is the rounded sum of its top and its
    height. *)
Example bottom_is_rounded :
  rect_bottom (Rect 0 (fl (1 # 10)) 200 (fl (2 # 10)))
  = (1351079888211149 # 4503599627370496)
  ∧ rect_bottom (Rect 0 36 200 36) = 72%Q.
Proof. vm_compute. done. Qed.

(** [trim] takes the no-break space away with the rest of the white
    space, and nothing else. *)
Example trim_white_space :
  trim (String nbsp (String "009" (String " " "A b"))) = "A b"
  ∧ trim (String "A" (String nbsp (String "010" ""))) = "A"
  ∧ trim "_A_" = "_A_".
Proof. vm_compute. done. Qed.

(** Claim C8, on a row that is picked up and released: the inline
    [z-index] that [#down] set is still there after [#up]; the row had no
    inline style before. *)
Theorem zIndex_survives_drop :
  (after_ok (Sorter.up (Sorter.down grab (row_box 0) 0 three_rows))
     ≫= λ p, inline <$> row_at p 0)
  = Some (Style unset unset (integer 999) unset unset unset)
  ∧ (inline <$> row_at three_rows 0) = Some no_style.
Proof. vm_compute. done. Qed.

(** A row whose text trims to the empty string yields no name: it is not
    saved, and a saved empty string does not move it. *)
Example empty_name_is_no_name :
  names page_A_blank = [Some "A"; Some ""]
  ∧ Sorter.order page_A_blank = ["A"]
  ∧ names <$> after_ok (Sorter.applySaved
                          (with_localStorage
                             (Store.save CONFIG.STORAGE_KEY ["A"; ""] ∅)
                             page_A_blank))
    = Some [Some ""; Some "A"].
Proof. vm_compute. done. Qed.

(** A stored length that the code reads as zero: the restore returns and
    moves nothing, as for an empty array. *)
Example tiny_length_is_falsy :
  lengthless (JObj [("length", JNum (1 # 10 ^ 400))]) = true
  ∧ lengthless (JObj [("length", JNum (1 # 10 ^ 300))]) = false
  ∧ lengthless (JObj [("length", JNum (inject_Z (10 ^ 400)))]) = false
  ∧ names <$> after_ok
      (Sorter.applySaved
         (rendered {[ CONFIG.STORAGE_KEY
                      := Doc (JObj [("length", JNum (1 # 10 ^ 400))]) ]}
                   ["A"; "B"]))
    = Some [Some "A"; Some "B"].
Proof. vm_compute. done. Qed.

(** The scenario of the specification: with ["C"; "A"; "B"] saved, a list
    rendered as [A; B; C] reads [C; A; B] once it is attached. *)
Example attach_CAB :
  names (Sorter.watch page_CAB).1 = [Some "C"; Some "A"; Some "B"].
Proof. vm_compute. done. Qed.

(** The scenario of the specification: row A of [A; B; C] is dragged
    below row B and released. *)
Example drag_A_below_B :
  let dropped :=
    p1 ← Sorter.move (Pointer 10 60) three_view
           (Sorter.down grab (row_box 0) 0 three_rows);
    Sorter.up p1 in
  names <$> after_ok dropped = Some [Some "B"; Some "A"; Some "C"]
  ∧ (after_ok dropped ≫= λ p, localStorage p !! CONFIG.STORAGE_KEY)
    = Some (Doc (JArr [JStr "B"; JStr "A"; JStr "C"])).
Proof. vm_compute. done. Qed.
End evaluations.

(** * Instances of the theorems on the sample pages *)

Lemma restore_order_witness :
  unique_names page_XA
  ∧ localStorage page_XA !! CONFIG.STORAGE_KEY = Some (JSON_stringify ["X"; "A"])
  ∧ ∃ p', Sorter.applySaved page_XA = Ok p' ∧ names p' = [Some "B"; Some "A"].
Proof.
  assert (unique_names page_XA) as H1 by (apply unique_names_NoDup; compute_done).
  assert (localStorage page_XA !! CONFIG.STORAGE_KEY
          = Some (JSON_stringify ["X"; "A"])) as H2 by compute_done.
  split; [exact H1|]. split; [exact H2|].
  destruct (restore_order ["X"; "A"] page_XA H1 H2) as (p' & Hp' & Hn).
  exists p'. split; [exact Hp'|]. rewrite Hn. compute_done.
Defined.

Lemma attach_twice_witness :
  sortAttach two_rows = false
  ∧ (∀ i r, i ∈ rows two_rows → row_at two_rows i = Some r →
            hasHandle r = false ∧ handles r = 0)
  ∧ Sorter.watch two_rows = ((Sorter.watch two_rows).1, None)
  ∧ (∀ i, i ∈ rows (Sorter.watch two_rows).1 →
       ∃ r, row_at (Sorter.watch two_rows).1 i = Some r
            ∧ handles r = if wrap r then 1 else 0)
  ∧ Sorter.watch (Sorter.watch two_rows).1 = ((Sorter.watch two_rows).1, None).
Proof.
  assert (sortAttach two_rows = false) as H1 by compute_done.
  assert (∀ i r, i ∈ rows two_rows → row_at two_rows i = Some r →
                 hasHandle r = false ∧ handles r = 0) as H2.
  { intros i r Hi Hr. assert (rows two_rows = [0; 1]) as Hrows by compute_done.
    rewrite Hrows in Hi.
    apply elem_of_cons in Hi as [->|Hi];
      [|apply elem_of_cons in Hi as [->|Hi]; [|by apply elem_of_nil in Hi]];
      vm_compute in Hr; injection Hr as <-; done. }
  assert (Sorter.watch two_rows = ((Sorter.watch two_rows).1, None)) as H3
    by compute_done.
  split; [exact H1|]. split; [exact H2|]. split; [exact H3|].
  destruct (attach_twice two_rows _ H1 H2 H3) as (Hone & _ & _ & Hagain).
  split; [exact Hone|exact Hagain].
Defined.

Lemma save_restore_roundtrip_witness :
  NoDup ["A"; "B"] ∧ ("" ∉ ["A"; "B"]) ∧ names page_BA ≡ₚ Some <$> ["A"; "B"]
  ∧ ∃ p', Sorter.applySaved
            (with_localStorage
               (Store.save CONFIG.STORAGE_KEY ["A"; "B"] (localStorage page_BA)) page_BA)
          = Ok p'
          ∧ names p' = Some <$> ["A"; "B"].
Proof.
  assert (NoDup ["A"; "B"]) as H1 by compute_done.
  assert ("" ∉ ["A"; "B"]) as H2 by compute_done.
  assert (names page_BA ≡ₚ Some <$> ["A"; "B"]) as H3 by (vm_compute; apply perm_swap).
  split; [exact H1|]. split; [exact H2|]. split; [exact H3|].
  exact (save_restore_roundtrip ["A"; "B"] page_BA H1 H2 H3).
Defined.

Lemma restore_preserves_rows_witness :
  NoDup (children page_XA)
  ∧ (∀ p', Sorter.applySaved page_XA = Ok p' →
       children p' ≡ₚ children page_XA ∧ rows p' ≡ₚ rows page_XA
       ∧ heap p' = heap page_XA)
  ∧ children (Sorter.init page_XA).1 ≡ₚ children page_XA.
Proof.
  assert (NoDup (children page_XA)) as H1 by compute_done.
  split; [exact H1|]. exact (restore_preserves_rows page_XA H1).
Defined.

Lemma autoscroll_rule_witness :
  drag short_list = Some (Session 0 2 5 5 CONFIG.edgeDistance)
  ∧ drag dragging_A = Some session_A
  ∧ (∃ p', Sorter.move (Pointer 10 36) short_view short_list = Ok p'
           ∧ scrollTop p' = 60%Q)
  ∧ (∃ p', Sorter.move (Pointer 10 60) anchored_view dragging_A = Ok p'
           ∧ (scrollTop p', scrollMax p') = (4%Q, 8%Q)).
Proof.
  assert (drag short_list = Some (Session 0 2 5 5 CONFIG.edgeDistance)) as H1 by compute_done.
  assert (drag dragging_A = Some session_A) as H2 by compute_done.
  split; [exact H1|]. split; [exact H2|]. split.
  - pose proof (autoscroll_rule (Pointer 10 36) short_view short_list _ H1) as H.
    cbv zeta in H. destruct H as (p' & s & Hm & Hup & _ & _ & _ & _ & _ & Hnone & _).
    exists p'. split; [exact Hm|]. destruct Hnone as [-> _].
    + intros item (Hi & Hne & Ha & Hb). vm_compute in Hi.
      apply elem_of_cons in Hi as [->|Hi]; [done|].
      apply elem_of_cons in Hi as [->|Hi]; [by vm_compute in Hb|].
      by apply elem_of_nil in Hi.
    + rewrite Hup by (by vm_compute). by vm_compute.
  - pose proof (autoscroll_rule (Pointer 10 60) anchored_view dragging_A _ H2) as H.
    cbv zeta in H. destruct H as (p' & s & Hm & _ & _ & Hstay & _ & _ & _ & _ & Hhit).
    exists p'. split; [exact Hm|]. rewrite (Hhit 1).
    + rewrite Hstay; [by vm_compute|by vm_compute|by vm_compute].
    + split; [compute_done|]. split; [done|]. split; by vm_compute.
Defined.

Lemma move_frame_witness :
  drag dragging_A = Some session_A
  ∧ ∃ p', Sorter.move (Pointer 10 60) three_view dragging_A = Ok p'
          ∧ localStorage p' = localStorage dragging_A
          ∧ detach 3 (children p') = detach 3 (children dragging_A).
Proof.
  assert (drag dragging_A = Some session_A) as H1 by compute_done.
  split; [exact H1|].
  destruct (move_frame (Pointer 10 60) three_view dragging_A session_A H1)
    as (p' & Hm & Hst & Hch & _).
  exists p'. split; [exact Hm|]. split; [exact Hst|exact Hch].
Defined.


Lemma drag_session_invariant_witness :
  placeholders three_rows = [] ∧ 0 ∈ rows three_rows
  ∧ (next three_rows ∉ children three_rows)
  ∧ ∃ p' d, moves [(Pointer 10 60, three_view)]
              (Sorter.down grab (row_box 0) 0 three_rows) = Ok p'
      ∧ drag p' = Some d ∧ drag_row d = 0
      ∧ placeholders p' = [drag_ph d]
      ∧ (0 ∉ Sorter.candidates d p')
      ∧ (∀ e' v', Sorter.target e' v' d p' ≠ Some 0).
Proof.
  assert (placeholders three_rows = []) as H1 by compute_done.
  assert (0 ∈ rows three_rows) as H2 by compute_done.
  assert (next three_rows ∉ children three_rows) as H3 by compute_done.
  split; [exact H1|]. split; [exact H2|]. split; [exact H3|].
  exact (drag_session_invariant grab (row_box 0) 0 three_rows
           [(Pointer 10 60, three_view)] H1 H2 H3).
Defined.

(** * A whole drag *)

Section whole_drag.
Implicit Types (p : page) (d : session) (e : PointerEvent) (v : layout).

Lemma NoDup_moved_next_to el ch ch' :
  NoDup ch → ch' ≡ₚ el :: detach el ch → NoDup ch'.
Proof.
  intros Hnd ->. apply NoDup_cons. split.
  - rewrite elem_of_detach. tauto.
  - by apply NoDup_filter.
Qed.

Lemma placed_NoDup e v d p :
  is_placeholder p (drag_ph d) = true → NoDup (children p) → NoDup (placed e v d p).
Proof.
  intros Hph Hnd. unfold placed, Sorter.target.
  destruct (find _ (Sorter.candidates d p)) as [hit|] eqn:Hf; [|done].
  apply find_first in Hf as (c1 & c2 & Hc & _ & _).
  assert (hit ∈ Sorter.candidates d p) as Hcand.
  { rewrite Hc. apply elem_of_app. right. left. }
  apply candidate_row in Hcand as (_ & Hrow & Hchild).
  assert (hit ≠ drag_ph d) as Hne.
  { intros ->. apply kinds_disjoint in Hph. rewrite Hph in Hrow. done. }
  destruct (Sorter.upper_half _ _).
  - eapply NoDup_moved_next_to; [done|]. by apply before_perm.
  - eapply NoDup_moved_next_to; [done|]. by apply after_perm.
Qed.

Lemma placed_detach e v d p :
  detach (drag_ph d) (placed e v d p) = detach (drag_ph d) (children p).
Proof.
  unfold placed. destruct (Sorter.target e v d p) as [item|]; [|done].
  destruct (Sorter.upper_half _ _); [apply detach_before|apply detach_after].
Qed.

(** What a run of moves keeps, besides the session itself. *)
Lemma moves_keep evs p d :
  in_session d p → NoDup (children p) →
  ∃ p', moves evs p = Ok p' ∧ in_session d p' ∧ NoDup (children p')
        ∧ detach (drag_ph d) (children p') = detach (drag_ph d) (children p)
        ∧ localStorage p' = localStorage p
        ∧ (∀ i, name p' i = name p i)
        ∧ (∀ i, is_row p' i = is_row p i)
        ∧ (∀ i, is_placeholder p' i = is_placeholder p i).
Proof.
  revert p. induction evs as [|[e v] evs IH]; intros p Hin Hnd.
  { exists p. done. }
  destruct (move_in_session e v p d Hin) as (p1 & Hm & Hin1).
  pose proof Hin as (Hd & Hph & _).
  destruct (move_fields e v p d Hd) as (p1' & Hm' & Hch & Hh & _ & Hst & _).
  rewrite Hm in Hm'. injection Hm' as <-.
  assert (NoDup (children p1)) as Hnd1 by (rewrite Hch; by apply placed_NoDup).
  destruct (IH p1 Hin1 Hnd1)
    as (p' & Hms & Hin' & Hnd' & Hdet & Hst' & Hname & Hrow & Hkind).
  exists p'. split; [simpl; by rewrite Hm|]. split; [done|]. split; [done|].
  split; [by rewrite Hdet, Hch, placed_detach|]. split; [by rewrite Hst'|].
  assert (∀ i, row_at p1 i = if decide (i = drag_row d)
                             then Sorter.follow e d <$> row_at p i else row_at p i) as Hrows.
  { intros i. unfold row_at at 1. rewrite Hh. apply row_at_update. }
  split; [|split].
  - intros i. rewrite Hname. unfold name. rewrite Hrows.
    destruct (decide (i = drag_row d)); [|done]. by destruct (row_at p i).
  - intros i. rewrite Hrow. unfold is_row. apply bool_decide_ext. rewrite Hrows.
    destruct (decide (i = drag_row d)); [|done]. by rewrite fmap_is_Some.
  - intros i. rewrite Hkind. unfold is_placeholder at 1. rewrite Hh.
    apply (is_placeholder_update p (drag_row d) (Sorter.follow e d) i).
Qed.

Lemma detach_replaceWith (old new : nat) (l : list nat) :
  old ≠ new → detach new (replaceWith old new l) = detach new (detach old l).
Proof.
  intros Hne. unfold replaceWith. case_decide as Hg.
  - clear Hg. induction l as [|x l IH]; [done|].
    rewrite (detach_cons new x), (detach_cons old x).
    destruct (decide (x = new)) as [->|Hxn].
    + rewrite decide_False by done. by rewrite detach_self.
    + rewrite fmap_cons. destruct (decide (x = old)) as [->|Hxo].
      * by rewrite detach_self.
      * by rewrite !(detach_cons new x), !decide_False, IH by done.
  - rewrite (detach_absent old); [done|]. tauto.
Qed.

Lemma NoDup_replaceWith (old new : nat) (l : list nat) :
  NoDup l → NoDup (replaceWith old new l).
Proof.
  intros Hnd. unfold replaceWith. case_decide as Hg; [|done].
  apply NoDup_fmap_2_strong; [|by apply NoDup_filter].
  intros x y Hx Hy. apply elem_of_detach in Hx as [Hx _].
  apply elem_of_detach in Hy as [Hy _].
  repeat case_decide; congruence.
Qed.

Lemma elem_of_replaceWith (old new : nat) (l : list nat) :
  old ∈ l → old ≠ new → new ∈ replaceWith old new l.
Proof.
  intros Hin Hne. unfold replaceWith. rewrite decide_True by done.
  apply list_elem_of_fmap. exists old. rewrite decide_True by done.
  split; [done|]. by apply elem_of_detach.
Qed.

Lemma up_fields p d :
  drag p = Some d →
  ∃ p', Sorter.up p = Ok p'
    ∧ children p' = replaceWith (drag_ph d) (drag_row d) (children p)
    ∧ heap p' = heap (update_row (drag_row d) Sorter.put_down p)
    ∧ localStorage p'
      = Store.save CONFIG.STORAGE_KEY (Sorter.order p') (localStorage p)
    ∧ drag p' = None ∧ onpointermove p' = false ∧ onpointerup p' = false
    ∧ scrollTop p' = scrollTop p ∧ sortAttach p' = sortAttach p.
Proof.
  intros Hd. unfold Sorter.up. rewrite Hd. eexists. split; [done|].
  set (p1 := with_children _ p).
  destruct (update_row_heap_only p1 (drag_row d) Sorter.put_down) as [h Hh].
  assert (heap (update_row (drag_row d) Sorter.put_down p1)
          = heap (update_row (drag_row d) Sorter.put_down p)) as Hheap.
  { unfold update_row. change (row_at p1 (drag_row d)) with (row_at p (drag_row d)).
    by destruct (row_at p (drag_row d)). }
  split; [simpl; by rewrite Hh|]. split; [exact Hheap|].
  unfold Sorter.save. simpl. rewrite Hh. done.
Qed.

(** The facts of a whole drag that the properties below draw on. *)
Lemma whole_drag e rect r evs p :
  NoDup (children p) → placeholders p = [] → r ∈ rows p →
  next p ∉ children p →
  ∃ pn p', moves evs (Sorter.down e rect r p) = Ok pn ∧ Sorter.up pn = Ok p'
    ∧ children p' = replaceWith (next p) r (children pn)
    ∧ NoDup (children pn) ∧ next p ∈ children pn
    ∧ detach (next p) (children pn) = children p
    ∧ (∀ i, i ≠ next p → name p' i = name p i)
    ∧ (∀ i, i ≠ next p → is_row p' i = is_row p i)
    ∧ (∀ i, i ≠ next p → is_placeholder p' i = is_placeholder p i)
    ∧ localStorage p'
      = Store.save CONFIG.STORAGE_KEY (Sorter.order p') (localStorage p)
    ∧ drag p' = None ∧ onpointermove p' = false ∧ onpointerup p' = false.
Proof.
  intros Hnd Hnone Hr Hfresh.
  set (d := Session r (next p) (fl (clientX e - rect_left rect))
                    (fl (clientY e - rect_top rect)) CONFIG.edgeDistance).
  pose proof (down_in_session e rect r p Hnone Hr Hfresh) as Hin. fold d in Hin.
  assert (r ∈ children p) as Hrch.
  { unfold rows in Hr. apply list_elem_of_filter in Hr. tauto. }
  assert (r ≠ next p) as Hne by (intros ->; done).
  assert (children (Sorter.down e rect r p) ≡ₚ next p :: detach (next p) (children p))
    as Hperm by (rewrite down_children; by apply before_perm).
  assert (NoDup (children (Sorter.down e rect r p))) as Hnd1
    by (by eapply NoDup_moved_next_to).
  destruct (moves_keep evs _ d Hin Hnd1)
    as (pn & Hms & Hinn & Hndn & Hdet & Hst & Hname & Hrow & Hkind).
  pose proof Hinn as (Hdn & _ & Hone).
  destruct (up_fields pn d Hdn) as (p' & Hup & Hch & Hh & Hsave & Hdr & Hm & Hu & _).
  exists pn, p'. split; [done|]. split; [done|]. split; [done|]. split; [done|].
  split.
  { assert (next p ∈ placeholders pn) as Hph by (rewrite Hone; left).
    unfold placeholders in Hph. apply list_elem_of_filter in Hph. tauto. }
  split.
  { change (drag_ph d) with (next p) in Hdet.
    rewrite Hdet, down_children, detach_before.
    by apply detach_absent. }
  assert (∀ i, row_at p' i = if decide (i = r)
                             then Sorter.put_down <$> row_at pn i else row_at pn i) as Hrows.
  { intros i. unfold row_at at 1. rewrite Hh. apply row_at_update. }
  assert (∀ i, i ≠ next p → row_at (Sorter.down e rect r p) i
                = if decide (i = r) then Sorter.pick_up rect <$> row_at p i
                  else row_at p i) as Hdown.
  { intros i Hi. unfold Sorter.down.
    set (p2 := with_children _ _).
    transitivity (row_at (update_row r (Sorter.pick_up rect) p2) i); [done|].
    rewrite row_at_update.
    assert (row_at p2 i = row_at p i) as ->; [|done].
    unfold row_at. simpl. by rewrite lookup_insert_ne. }
  split; [|split; [|split]].
  - intros i Hi. unfold name. rewrite Hrows.
    assert (row_at pn i ≫= name_of = row_at p i ≫= name_of) as Hn.
    { specialize (Hname i). unfold name in Hname. rewrite Hname, (Hdown i Hi).
      destruct (decide (i = r)); [|done]. by destruct (row_at p i). }
    rewrite <- Hn. destruct (decide (i = r)); [|done]. by destruct (row_at pn i).
  - intros i Hi. unfold is_row at 1. rewrite Hrows.
    transitivity (is_row pn i).
    { unfold is_row. apply bool_decide_ext.
      destruct (decide (i = r)); [|done]. by rewrite fmap_is_Some. }
    rewrite Hrow. unfold is_row. apply bool_decide_ext. rewrite (Hdown i Hi).
    destruct (decide (i = r)); [|done]. by rewrite fmap_is_Some.
  - intros i Hi. transitivity (is_placeholder pn i).
    { unfold is_placeholder at 1. rewrite Hh.
      apply (is_placeholder_update pn r Sorter.put_down i). }
    rewrite Hkind, down_kinds. by rewrite decide_False.
  - rewrite Hsave, Hst. split; [|done]. f_equal.
    unfold Sorter.down. set (p2 := with_children _ _).
    destruct (update_row_heap_only p2 r (Sorter.pick_up rect)) as [h' Hh'].
    simpl. by rewrite Hh'.
Qed.
End whole_drag.

Section drag_properties.
Implicit Types (p : page) (d : session) (e : PointerEvent) (v : layout).

Lemma order_names p : Some <$> Sorter.order p = filter (λ o, truthy_name o) (names p).
Proof.
  unfold Sorter.order, names. induction (rows p) as [|i l IH]; [done|].
  rewrite omap_step, fmap_cons, (filter_cons _ (name p i)).
  destruct (name p i) as [s|]; simpl; [|done].
  rewrite filter_cons. destruct (decide (s ≠ "")) as [Hs|Hs].
  - rewrite decide_True by (by apply bool_decide_pack). by rewrite fmap_cons, IH.
  - rewrite decide_False; [done|]. intros H. by apply bool_decide_unpack in H.
Qed.

Lemma order_agree p q :
  rows q = rows p → (∀ i, i ∈ rows p → name q i = name p i) →
  Sorter.order q = Sorter.order p.
Proof.
  intros Hr Hn. unfold Sorter.order. rewrite Hr. f_equal.
  apply list_omap_ext. apply Forall2_same_length_lookup. split; [done|].
  intros i x y Hx Hy. rewrite Hx in Hy. injection Hy as <-.
  apply Hn. by eapply list_elem_of_lookup_2.
Qed.

(** Property X1 (a whole drag moves one row).  Start from a list of
    distinct elements without placeholder; press on a row, move the
    pointer any number of times, release.  Every handler returns; the
    elements other than the dragged row keep their relative order; the
    list holds the elements it held before and no placeholder; every
    element keeps its name; the session and the two document handlers are
    cleared. *)
Theorem drag_moves_one_row e rect r evs p :
  NoDup (children p) → placeholders p = [] → r ∈ rows p →
  next p ∉ children p →
  ∃ p', drag_and_drop e rect r evs p = Ok p'
    ∧ detach r (children p') = detach r (children p)
    ∧ children p' ≡ₚ children p
    ∧ placeholders p' = []
    ∧ (∀ i, i ∈ children p → name p' i = name p i)
    ∧ drag p' = None ∧ onpointermove p' = false ∧ onpointerup p' = false.
Proof.
  intros Hnd Hnone Hr Hfresh.
  destruct (whole_drag e rect r evs p Hnd Hnone Hr Hfresh)
    as (pn & p' & Hms & Hup & Hch & Hndn & Hphn & Hdet & Hname & Hrow & Hkind
        & _ & Hdr & Hm & Hu).
  assert (r ∈ children p) as Hrch.
  { unfold rows in Hr. apply list_elem_of_filter in Hr. tauto. }
  assert (next p ≠ r) as Hne by (intros Heq; rewrite Heq in Hfresh; done).
  assert (detach r (children p') = detach r (children p)) as Hdr'.
  { by rewrite Hch, detach_replaceWith, Hdet. }
  assert (∀ x, x ∈ children p' ↔ x ∈ children p) as Hmem.
  { intros x. destruct (decide (x = r)) as [->|Hx].
    - split; [done|]. intros _. rewrite Hch. by apply elem_of_replaceWith.
    - transitivity (x ∈ detach r (children p')); [rewrite elem_of_detach; tauto|].
      rewrite Hdr', elem_of_detach. tauto. }
  exists p'. split; [unfold drag_and_drop; by rewrite Hms|].
  split; [done|]. split.
  { apply NoDup_Permutation; [|done|done]. rewrite Hch. by apply NoDup_replaceWith. }
  split.
  { apply filter_nothing. intros x Hx%Hmem.
    assert (x ≠ next p) as Hxp by (intros ->; done).
    rewrite (Hkind x Hxp). intros Hpl.
    by apply (filter_nil_not_elem_of _ _ x Hnone). }
  split; [|done]. intros i Hi. apply Hname. intros ->. done.
Qed.

(** Property X2 (what a drop stores).  A release during a session returns,
    and the store then holds, under the key of the sorter, the names of the
    rows as they stand after the drop, top to bottom, without the absent
    and the empty names; no other key of the store is touched. *)
Theorem drop_persists_order p d :
  drag p = Some d →
  ∃ p', Sorter.up p = Ok p'
    ∧ Store.get CONFIG.STORAGE_KEY (localStorage p') = Ok (JArr (JStr <$> Sorter.order p'))
    ∧ Some <$> Sorter.order p' = filter (λ o, truthy_name o) (names p')
    ∧ (∀ k, k ≠ CONFIG.STORAGE_KEY → localStorage p' !! k = localStorage p !! k).
Proof.
  intros Hd. destruct (up_fields p d Hd) as (p' & Hup & _ & _ & Hsave & _).
  exists p'. split; [done|]. rewrite Hsave. unfold Store.get, Store.save.
  split; [by rewrite lookup_insert_eq|]. split; [apply order_names|].
  intros k Hk. by rewrite lookup_insert_ne.
Qed.

Lemma update_row_other p a f i :
  i ≠ a → heap (update_row a f p) !! i = heap p !! i.
Proof.
  intros Hi. unfold update_row. destruct (row_at p a); [|done].
  simpl. by rewrite lookup_insert_ne.
Qed.

(** Property X3 (press and release without a move).  Take a list of
    distinct elements without placeholder, press on one of its rows and
    release at once.  The elements of the list are in the order they had,
    and every element object other than the pressed row is as it was.  The
    pressed row is not: its inline style is cleared but for the z-index
    999 that the press gave it, whatever inline width, position, left, top
    or pointer-events it had before.  The stored order is overwritten with
    the order on display, no other key of the store is touched, and the
    session and the handlers are cleared. *)
Theorem click_keeps_order e rect r p x :
  NoDup (children p) → placeholders p = [] → r ∈ rows p →
  next p ∉ children p → row_at p r = Some x →
  ∃ p', drag_and_drop e rect r [] p = Ok p'
    ∧ children p' = children p
    ∧ (∀ i, i ≠ r → i ≠ next p → heap p' !! i = heap p !! i)
    ∧ row_at p' r
      = Some (Row (truncate x) (wrap x) (hasHandle x) (handles x)
                  (Style unset unset (integer 999) unset unset unset) false)
    ∧ Store.get CONFIG.STORAGE_KEY (localStorage p')
      = Ok (JArr (JStr <$> Sorter.order p))
    ∧ (∀ k, k ≠ CONFIG.STORAGE_KEY → localStorage p' !! k = localStorage p !! k)
    ∧ drag p' = None ∧ onpointermove p' = false ∧ onpointerup p' = false.
Proof.
  intros Hnd Hnone Hr Hfresh Hx.
  destruct (whole_drag e rect r [] p Hnd Hnone Hr Hfresh)
    as (pn & p' & Hms & Hup & Hch & Hndn & Hphn & Hdet & Hname & Hrow & _
        & Hsave & Hdrag).
  injection Hms as <-.
  assert (r ∈ children p) as Hrch.
  { unfold rows in Hr. apply list_elem_of_filter in Hr. tauto. }
  assert (r ≠ next p) as Hne by (intros Heq; rewrite <- Heq in Hfresh; done).
  assert (children p' = children p) as Hsame.
  { rewrite Hch. rewrite down_children in *. unfold before in *.
    rewrite decide_True in * by done. rewrite detach_absent in * by done.
    destruct (insert_before_split (next p) r (children p) Hrch)
      as (l1 & l2 & Hl & Hl1 & Hins).
    rewrite Hins in *. rewrite replaceWith_position by done.
    rewrite Hl in Hnd. apply NoDup_app in Hnd as (_ & _ & Hnd).
    apply NoDup_cons in Hnd as [Hl2 _].
    by rewrite detach_self, !detach_absent, Hl by done. }
  set (d := Session r (next p) (fl (clientX e - rect_left rect))
                    (fl (clientY e - rect_top rect)) CONFIG.edgeDistance).
  destruct (up_fields (Sorter.down e rect r p) d eq_refl) as (p2 & Hup2 & _ & Hh & _).
  rewrite Hup in Hup2. injection Hup2 as <-.
  set (p0 := with_children (before r (next p) (children p))
               (with_next (S (next p))
                  (with_heap (<[next p := Placeholder (rect_height rect)]> (heap p)) p))).
  assert (heap (Sorter.down e rect r p) = heap (update_row r (Sorter.pick_up rect) p0))
    as Hdown by done.
  assert (row_at p0 r = Some x) as Hx0.
  { unfold row_at, p0. simpl. rewrite lookup_insert_ne by done. exact Hx. }
  exists p'. split; [unfold drag_and_drop; simpl; by rewrite Hup|].
  split; [done|]. split; [|split; [|split; [|split]]].
  - intros i Hi Hin. rewrite Hh. change (drag_row d) with r.
    rewrite update_row_other by done. rewrite Hdown, update_row_other by done.
    unfold p0. simpl. by rewrite lookup_insert_ne.
  - assert (row_at p' r = row_at (update_row r Sorter.put_down (Sorter.down e rect r p)) r)
      as -> by (unfold row_at; by rewrite Hh).
    rewrite row_at_update, decide_True by done.
    assert (row_at (Sorter.down e rect r p) r
            = row_at (update_row r (Sorter.pick_up rect) p0) r)
      as -> by (unfold row_at; by rewrite Hdown).
    rewrite row_at_update, decide_True, Hx0 by done. done.
  - rewrite Hsave. unfold Store.get, Store.save.
    rewrite lookup_insert_eq. simpl. do 3 f_equal.
    assert (rows p' = rows p) as Hrows.
    { unfold rows. rewrite Hsame. apply filter_agree. intros i Hi.
      rewrite Hrow; [done|]. intros ->. done. }
    apply order_agree; [done|]. intros i Hi. apply Hname. intros ->.
    unfold rows in Hi. apply list_elem_of_filter in Hi. tauto.
  - intros k Hk. rewrite Hsave. unfold Store.save. by rewrite lookup_insert_ne.
  - done.
Qed.

(** Property X4 (the drop position).  At the release the dragged row goes
    where the placeholder stands: the elements before the placeholder
    stay before the row and the elements after it stay after, and the row
    is taken out of the place it had in the list. *)
Theorem drop_takes_placeholder_place p d l1 l2 :
  drag p = Some d → drag_row d ≠ drag_ph d →
  children p = l1 ++ drag_ph d :: l2 → NoDup (children p) →
  ∃ p', Sorter.up p = Ok p'
    ∧ children p' = detach (drag_row d) l1 ++ drag_row d :: detach (drag_row d) l2.
Proof.
  intros Hd Hne Hch Hnd. destruct (up_fields p d Hd) as (p' & Hup & Hch' & _).
  exists p'. split; [done|]. rewrite Hch', Hch. apply replaceWith_position; [|done].
  by rewrite <- Hch.
Qed.

(** Property X5 (a second press during a session).  [#down] does not look
    at the session in progress: a press on a row while a session is open
    puts a second placeholder in the list, and the release that follows
    replaces the new one only.  The first placeholder stays in the list,
    though the session and the handlers are cleared. *)
Theorem second_pointer_down_strands_placeholder e rect r' p d :
  in_session d p → r' ∈ rows p → next p ∉ children p →
  length (placeholders (Sorter.down e rect r' p)) = 2
  ∧ ∃ p', Sorter.up (Sorter.down e rect r' p) = Ok p'
      ∧ drag_ph d ∈ placeholders p'
      ∧ drag p' = None ∧ onpointermove p' = false ∧ onpointerup p' = false.
Proof.
  intros (Hd & Hph & Hone) Hr Hfresh.
  assert (r' ∈ children p ∧ is_row p r') as [Hrch Hrow].
  { unfold rows in Hr. apply list_elem_of_filter in Hr. tauto. }
  assert (r' ≠ next p) as Hne by (intros Heq; rewrite <- Heq in Hfresh; done).
  assert (drag_ph d ∈ children p) as Hold.
  { assert (drag_ph d ∈ placeholders p) as H by (rewrite Hone; left).
    unfold placeholders in H. apply list_elem_of_filter in H. tauto. }
  assert (drag_ph d ≠ next p) as Hne2 by (intros Heq; rewrite <- Heq in Hfresh; done).
  assert (drag_ph d ≠ r') as Hne3.
  { intros Heq. apply kinds_disjoint in Hph. rewrite Heq in Hph.
    rewrite Hph in Hrow. done. }
  split.
  - unfold placeholders. rewrite down_children.
    rewrite (list_filter_iff _ (λ i, i = next p ∨ is_placeholder p i)).
    2:{ intros i. rewrite down_kinds. destruct (decide (i = next p)); [split; [by left|done]|].
        split; [by right|by intros [?|?]]. }
    rewrite before_perm, filter_cons_True by (done || by left).
    rewrite filter_detach.
    rewrite (filter_agree _ (λ i, is_placeholder p i) (children p)).
    2:{ intros i Hi. split; [|by right]. intros [->|?]; done. }
    fold (placeholders p). rewrite Hone. rewrite detach_absent; [done|]. rewrite list_elem_of_singleton. congruence.
  - set (d' := Session r' (next p) (fl (clientX e - rect_left rect))
                       (fl (clientY e - rect_top rect)) CONFIG.edgeDistance).
    destruct (up_fields (Sorter.down e rect r' p) d' eq_refl)
      as (p' & Hup & Hch & Hh & _ & Hdr & Hm & Hu & _).
    exists p'. split; [done|]. split; [|done].
    unfold placeholders. apply list_elem_of_filter. split.
    + unfold is_placeholder. rewrite Hh.
      change (Is_true (is_placeholder
                (update_row (drag_row d') Sorter.put_down (Sorter.down e rect r' p))
                (drag_ph d))).
      rewrite is_placeholder_update, down_kinds, decide_False by done. by rewrite Hph.
    + rewrite Hch. unfold replaceWith. change (drag_ph d') with (next p).
      change (drag_row d') with r'. rewrite down_children.
      assert (next p ∈ before r' (next p) (children p)) as Hin.
      { rewrite before_perm by done. left. }
      rewrite decide_True by done.
      apply list_elem_of_fmap. exists (drag_ph d). rewrite decide_False by done.
      split; [done|]. apply elem_of_detach. split; [done|].
      rewrite before_perm by done. right. by apply elem_of_detach.
Qed.
End drag_properties.

(** * More on the restore and the attachment *)

Section restore_more.
Implicit Types (p : page).

(** A restore that returns either did nothing or read an array and moved
    the rows its string entries name. *)
Lemma applySaved_cases p p' :
  Sorter.applySaved p = Ok p' →
  p' = p ∨
  ∃ items, localStorage p !! CONFIG.STORAGE_KEY = Some (Doc (JArr items)) ∧
    let T := omap (pick (Sorter.name_map p)) items in
    p' = with_children (filter (λ i, i ∉ T) (children p) ++ remove_dups T) p.
Proof.
  intros Hok.
  destruct (localStorage p !! CONFIG.STORAGE_KEY) as [[| |v]|] eqn:Hst.
  - left. rewrite restore_without_order in Hok by (by rewrite Hst). congruence.
  - apply restore_corrupt in Hst as [Hst _]. congruence.
  - destruct (is_array v) eqn:Hv.
    + destruct v; try done. right. exists items. split; [done|].
      rewrite (applySaved_array p items Hst) in Hok. simpl in *. congruence.
    + rewrite (restore_not_array p v Hst) in Hok by (by intros items ->).
      destruct (lengthless v); [left; congruence|done].
  - left. rewrite restore_without_order in Hok by (by rewrite Hst). congruence.
Qed.

(** Property X6 (what a restore may touch).  A restore that returns has
    moved a set [T] of rows to the end of the list and nothing else: each
    row of [T] has a name that is not empty and that the stored array
    lists; element objects, store, attach flag, scroll offset and session
    are as before. *)
Theorem restore_moves_only_named_rows p p' :
  Sorter.applySaved p = Ok p' →
  ∃ T, children p' = filter (λ i, i ∉ T) (children p) ++ remove_dups T
    ∧ (∀ r, r ∈ T → r ∈ rows p ∧ ∃ s items, name p r = Some s ∧ s ≠ ""
             ∧ localStorage p !! CONFIG.STORAGE_KEY = Some (Doc (JArr items))
             ∧ JStr s ∈ items)
    ∧ heap p' = heap p ∧ localStorage p' = localStorage p
    ∧ sortAttach p' = sortAttach p ∧ scrollTop p' = scrollTop p
    ∧ drag p' = drag p.
Proof.
  intros [->|(items & Hst & ->)]%applySaved_cases.
  - exists []. split; [by rewrite filter_none, app_nil_r|].
    split; [by intros r ?%elem_of_nil|done].
  - eexists. split; [done|]. split; [|done].
    intros r (n & Hn & Hpick)%list_elem_of_omap. destruct n; try done.
    apply name_map_sound in Hpick as (Hr & Hname & Hs).
    split; [done|]. by exists s, items.
Qed.

Lemma name_map_same p q :
  unique_names p → (∀ i, i ∈ rows q ↔ i ∈ rows p) → (∀ i, name q i = name p i) →
  Sorter.name_map q = Sorter.name_map p.
Proof.
  intros Hu Hrows Hname. apply map_eq. intros s.
  destruct (Sorter.name_map p !! s) as [r|] eqn:Hp.
  - apply name_map_sound in Hp as (Hr & Hn & Hs).
    apply name_map_unique; [|by apply Hrows|by rewrite Hname|done].
    intros i j n Hi Hj Hni Hnj Hne. rewrite Hname in Hni, Hnj.
    apply Hrows in Hi, Hj. eauto.
  - destruct (Sorter.name_map q !! s) as [r|] eqn:Hq; [|done].
    apply name_map_sound in Hq as (Hr & Hn & Hs).
    destruct (name_map_complete p s r) as [? ?]; [by apply Hrows|by rewrite <- Hname|done|].
    congruence.
Qed.

(** Property X7 (restoring twice).  On a list whose rows have distinct
    names, a restore that has returned changes nothing when it is run
    again. *)
Theorem restore_twice p p' :
  unique_names p → Sorter.applySaved p = Ok p' → Sorter.applySaved p' = Ok p'.
Proof.
  intros Hu Hok. pose proof Hok as [->|(items & Hst & Hp')]%applySaved_cases; [done|].
  simpl in Hp'. set (T := omap (pick (Sorter.name_map p)) items) in *.
  assert (∀ r, r ∈ T → r ∈ rows p) as HT by apply pick_in_rows.
  assert (Sorter.name_map p' = Sorter.name_map p) as Hmap.
  { apply name_map_same; [done| |by rewrite Hp'].
    intros i. rewrite Hp', rows_moved by done.
    rewrite elem_of_app, list_elem_of_filter, elem_of_remove_dups.
    specialize (HT i). destruct (decide (i ∈ T)); tauto. }
  assert (filter (λ i, i ∉ T) (remove_dups T) = []) as Hgone.
  { apply filter_nothing. intros x Hx. rewrite elem_of_remove_dups in Hx. tauto. }
  assert (filter (λ i, i ∉ T) (filter (λ i, i ∉ T) (children p))
          = filter (λ i, i ∉ T) (children p)) as Hsame.
  { rewrite list_filter_filter. apply list_filter_iff. tauto. }
  rewrite (applySaved_array p' items) by (by rewrite Hp').
  simpl. rewrite Hmap. fold T. rewrite Hp'. simpl.
  rewrite filter_app, Hgone, Hsame, app_nil_r. done.
Qed.

(** Property X8 (when the restore throws).  The restore throws in two
    cases and no other: the stored item is not JSON, and it throws a
    SyntaxError; or the stored item denotes a value that is not an array
    and whose [length] is not read as falsy, and it throws a TypeError. *)
Theorem restore_raises_only p e :
  Sorter.applySaved p = Raise e ↔
  (localStorage p !! CONFIG.STORAGE_KEY = Some Garbled ∧ e = SyntaxError)
  ∨ (∃ v, localStorage p !! CONFIG.STORAGE_KEY = Some (Doc v)
          ∧ is_array v = false ∧ lengthless v = false ∧ e = TypeError).
Proof.
  destruct (localStorage p !! CONFIG.STORAGE_KEY) as [[| |v]|] eqn:Hst.
  - rewrite restore_without_order by (by rewrite Hst).
    split; [done|]. intros [[? _]|(v & ? & _)]; done.
  - apply restore_corrupt in Hst as [-> _]. split.
    + intros [= <-]. by left.
    + intros [[_ ->]|(v & ? & _)]; done.
  - destruct (is_array v) eqn:Hv.
    + destruct v; try done. rewrite (applySaved_array p items Hst).
      split; [done|]. intros [[? _]|(v & [= <-] & ? & _)]; done.
    + rewrite (restore_not_array p v Hst) by (by intros items ->).
      destruct (lengthless v) eqn:Hl.
      * split; [done|]. intros [[? _]|(w & [= <-] & _ & ? & _)]; congruence.
      * split.
        -- intros [= <-]. right. by exists v.
        -- intros [[? _]|(w & _ & _ & _ & ->)]; done.
  - rewrite restore_without_order by (by rewrite Hst).
    split; [done|]. intros [[? _]|(v & ? & _)]; done.
Qed.
End restore_more.

Section attach_more.
Implicit Types (p : page).

(** Property X9 (one attempt per list).  [#init] sets the attach flag
    before anything else, so the flag is set whether the restore returned
    or threw; the observer then leaves the list alone whatever the store
    holds later, and a list whose restore threw keeps its elements as
    they were, without handles. *)
Theorem attach_is_tried_once p :
  sortAttach (Sorter.init p).1 = true
  ∧ (∀ store, Sorter.watch (with_localStorage store (Sorter.init p).1)
              = (with_localStorage store (Sorter.init p).1, None))
  ∧ (∀ e, (Sorter.init p).2 = Some e →
          heap (Sorter.init p).1 = heap p ∧ children (Sorter.init p).1 = children p).
Proof.
  assert (sortAttach (Sorter.init p).1 = true) as Hset.
  { unfold Sorter.init.
    destruct (Sorter.applySaved (with_sortAttach true p)) as [p2|err] eqn:Hp2; [|done].
    simpl. fold (gripped p2 (rows p2)).
    destruct (gripped_heap_only (rows p2) p2) as [h ->].
    apply applySaved_moves in Hp2 as (T & _ & ->). done. }
  split; [done|]. split.
  - intros store. unfold Sorter.watch. simpl. by rewrite Hset.
  - intros e. unfold Sorter.init.
    by destruct (Sorter.applySaved (with_sortAttach true p)).
Qed.

End attach_more.

Section save_then_restore.
Implicit Types (p q : page) (S : list string).

Lemma restore_exact S q :
  NoDup S → ("" ∉ S) → names q ≡ₚ Some <$> S →
  localStorage q !! CONFIG.STORAGE_KEY = Some (JSON_stringify S) →
  ∃ q', Sorter.applySaved q = Ok q' ∧ names q' = Some <$> S.
Proof.
  intros HS Hne Hperm Hst.
  assert (NoDup (names q)) as Hnd.
  { rewrite Hperm. apply NoDup_fmap_2; [apply _|done]. }
  destruct (restore_order_names q S) as (q' & Hq' & Hn);
    [by apply unique_names_NoDup|done|].
  exists q'. split; [done|]. rewrite Hn.
  rewrite remove_dups_NoDup by done.
  rewrite (filter_all (λ s, current_name q s)).
  - rewrite filter_nothing; [done|].
    intros o Ho Hno. apply Hno.
    rewrite Hperm in Ho. apply list_elem_of_fmap in Ho as (s & -> & Hs).
    apply bool_decide_pack. split; [|done]. by intros ->.
  - intros s Hs. split; [by intros ->|].
    rewrite Hperm. by apply list_elem_of_fmap_2.
Qed.

(** Property X11 (the order saved from a list restores on another).  Let
    the rows of a list have distinct names, none absent or empty.  What
    [#save] stores for that list, restored on any list with the same names
    in any order, leaves the rows named as in the first list, top to
    bottom. *)
Theorem saved_order_restores p q :
  NoDup (names p) → (∀ o, o ∈ names p → truthy_name o) →
  names q ≡ₚ names p →
  localStorage q !! CONFIG.STORAGE_KEY
  = localStorage (Sorter.save p) !! CONFIG.STORAGE_KEY →
  ∃ q', Sorter.applySaved q = Ok q' ∧ names q' = names p.
Proof.
  intros Hnd Hall Hperm Hst.
  assert (Some <$> Sorter.order p = names p) as Hord.
  { rewrite order_names. by apply filter_all. }
  rewrite <- Hord in *.
  apply restore_exact; [by eapply NoDup_fmap_1| |done|].
  - intros Hin. apply (list_elem_of_fmap_2 Some) in Hin.
    by apply Hall in Hin.
  - rewrite Hst. unfold Sorter.save, Store.save. simpl. apply lookup_insert_eq.
Qed.
End save_then_restore.

(** * The tag sanitiser *)

Section sanitize.
Import XmlTagCreator.
Implicit Types (s t : string) (a : ascii) (b : bool).

Lemma name_char_lower a : name_char a = true → lower a = a.
Proof. destruct a as [[] [] [] [] [] [] [] []]; vm_compute; done. Qed.

Lemma underscore_name_char a : is_underscore a = true → name_char a = true.
Proof. destruct a as [[] [] [] [] [] [] [] []]; vm_compute; done. Qed.

Lemma toLowerCase_id s : every name_char s = true → toLowerCase s = s.
Proof.
  induction s as [|a s IH]; [done|]. simpl. intros [Ha Hs]%andb_true_iff.
  by rewrite name_char_lower, IH.
Qed.

Lemma squeeze_invalid_chars b s :
  every name_char (squeeze (λ a, negb (name_char a)) b s) = true.
Proof.
  revert b. induction s as [|a s IH]; intros b; [done|]. simpl.
  destruct (name_char a) eqn:Ha; simpl.
  - by rewrite Ha, IH.
  - destruct b; [apply IH|]. simpl. apply IH.
Qed.

Lemma squeeze_under_chars b s :
  every name_char s = true → every name_char (squeeze is_underscore b s) = true.
Proof.
  revert b. induction s as [|a s IH]; intros b; [done|]. simpl.
  intros [Ha Hs]%andb_true_iff. destruct (is_underscore a) eqn:Hu.
  - destruct b; [by apply IH|]. simpl. by apply IH.
  - simpl. by rewrite Ha, IH.
Qed.

Lemma squeeze_under_spaced b s : spaced b (squeeze is_underscore b s) = true.
Proof.
  revert b. induction s as [|a s IH]; intros b; [done|]. simpl.
  destruct (is_underscore a) eqn:Hu.
  - destruct b; [apply IH|]. simpl. apply IH.
  - simpl. rewrite Hu. apply IH.
Qed.

Lemma squeeze_invalid_id b s :
  every name_char s = true → squeeze (λ a, negb (name_char a)) b s = s.
Proof.
  revert b. induction s as [|a s IH]; intros b; [done|]. simpl.
  intros [Ha Hs]%andb_true_iff. rewrite Ha. simpl. by rewrite IH.
Qed.

Lemma squeeze_under_id b s : spaced b s = true → squeeze is_underscore b s = s.
Proof.
  revert b. induction s as [|a s IH]; intros b; [done|]. simpl.
  destruct (is_underscore a) eqn:Hu.
  - intros [Hb Hs]%andb_true_iff. destruct b; [done|]. rewrite IH by done.
    unfold is_underscore in Hu. by apply bool_decide_eq_true in Hu as ->.
  - intros Hs. by rewrite IH.
Qed.

Lemma spaced_weaken b s : spaced b s = true → spaced false s = true.
Proof.
  destruct s as [|a s]; [done|]. simpl. destruct (is_underscore a); [|done].
  intros [_ ->]%andb_true_iff. done.
Qed.

Lemma spaced_strengthen s :
  starts_underscore s = false → spaced false s = true → spaced true s = true.
Proof. destruct s as [|a s]; [done|]. simpl. by intros ->. Qed.

Lemma spaced_tail b a s : spaced b (String a s) = true → spaced false s = true.
Proof.
  simpl. destruct (is_underscore a).
  - intros [_ H]%andb_true_iff. by eapply spaced_weaken.
  - done.
Qed.

Lemma drop_leading_every P s : every P s = true → every P (drop_leading s) = true.
Proof.
  induction s as [|a s IH]; [done|]. simpl. intros H.
  destruct (is_underscore a); [|done]. apply andb_true_iff in H as [_ H]. auto.
Qed.

Lemma drop_leading_spaced b s : spaced b s = true → spaced false (drop_leading s) = true.
Proof.
  revert b. induction s as [|a s IH]; intros b; [done|]. intros H. simpl.
  destruct (is_underscore a) eqn:Hu.
  - simpl in H. rewrite Hu in H. apply andb_true_iff in H as [_ H]. by eapply IH.
  - by eapply spaced_weaken.
Qed.

Lemma drop_leading_start s : starts_underscore (drop_leading s) = false.
Proof.
  induction s as [|a s IH]; [done|]. simpl.
  destruct (is_underscore a) eqn:Hu; [done|]. simpl. done.
Qed.

Lemma drop_leading_id s : starts_underscore s = false → drop_leading s = s.
Proof. destruct s as [|a s]; [done|]. simpl. by intros ->. Qed.

Lemma drop_trailing_every P s : every P s = true → every P (drop_trailing s) = true.
Proof.
  induction s as [|a s IH]; [done|]. simpl. intros [Ha Hs]%andb_true_iff.
  specialize (IH Hs). destruct (drop_trailing s) as [|c t].
  - destruct (is_underscore a); [done|]. simpl. by rewrite Ha.
  - change (every P (String a (String c t)) = true). simpl in *. by rewrite Ha, IH.
Qed.

Lemma drop_trailing_spaced b s : spaced b s = true → spaced b (drop_trailing s) = true.
Proof.
  revert b. induction s as [|a s IH]; intros b; [done|]. simpl.
  destruct (is_underscore a) eqn:Hu.
  - intros [Hb Hs]%andb_true_iff. specialize (IH _ Hs).
    destruct (drop_trailing s) as [|c t]; [done|].
    change (spaced b (String a (String c t)) = true).
    cbn [spaced]. rewrite Hu, Hb. exact IH.
  - intros Hs. specialize (IH _ Hs).
    destruct (drop_trailing s) as [|c t]; [by simpl; rewrite Hu|].
    change (spaced b (String a (String c t)) = true).
    cbn [spaced]. rewrite Hu. exact IH.
Qed.

Lemma drop_trailing_start s :
  starts_underscore s = false → starts_underscore (drop_trailing s) = false.
Proof.
  destruct s as [|a s]; [done|]. simpl. intros Ha.
  destruct (drop_trailing s); [by rewrite Ha|done].
Qed.

Lemma drop_trailing_end s : ends_underscore (drop_trailing s) = false.
Proof.
  induction s as [|a s IH]; [done|]. simpl.
  destruct (drop_trailing s) as [|c t] eqn:Ht.
  - destruct (is_underscore a) eqn:Hu; [done|]. simpl. done.
  - change (ends_underscore (String a (String c t))) with (ends_underscore (String c t)).
    done.
Qed.

Lemma drop_trailing_id s : ends_underscore s = false → drop_trailing s = s.
Proof.
  induction s as [|a s IH]; [done|]. intros H. simpl. destruct s as [|c t].
  - simpl in *. by rewrite H.
  - rewrite IH by done. done.
Qed.

Lemma sanitize_stages t b :
  sanitize t b = finish (if b then trim_underscores (cleaned t) else cleaned t).
Proof. done. Qed.

Lemma cleaned_shape t :
  every name_char (cleaned t) = true ∧ spaced false (cleaned t) = true.
Proof.
  split.
  - apply squeeze_under_chars, squeeze_invalid_chars.
  - apply squeeze_under_spaced.
Qed.

Lemma cleaned_id s :
  every name_char s = true → spaced false s = true → cleaned s = s.
Proof.
  intros Hc Hs. unfold cleaned.
  by rewrite toLowerCase_id, squeeze_invalid_id, squeeze_under_id.
Qed.

Lemma trimmed_shape s :
  every name_char s = true → spaced false s = true →
  every name_char (trim_underscores s) = true
  ∧ spaced false (trim_underscores s) = true
  ∧ starts_underscore (trim_underscores s) = false
  ∧ ends_underscore (trim_underscores s) = false.
Proof.
  intros Hc Hs. unfold trim_underscores. split; [|split; [|split]].
  - by apply drop_trailing_every, drop_leading_every.
  - eapply drop_trailing_spaced, drop_leading_spaced. done.
  - apply drop_trailing_start, drop_leading_start.
  - apply drop_trailing_end.
Qed.

Lemma trimmed_id s :
  starts_underscore s = false → ends_underscore s = false → trim_underscores s = s.
Proof.
  intros H1 H2. unfold trim_underscores. by rewrite drop_leading_id, drop_trailing_id.
Qed.

Lemma prefixed_start s :
  startsWith "xml" s || negb (starts_name s) = true → s ≠ "" →
  starts_underscore s = false.
Proof.
  destruct s as [|a s]; [done|]. intros H _. simpl in *.
  destruct (is_underscore a) eqn:Hu; [|done].
  unfold is_underscore in Hu. apply bool_decide_eq_true in Hu as ->.
  by vm_compute in H.
Qed.

Lemma finish_prefixed s :
  starts_underscore s = false → s ≠ "" →
  finish (String "_" s) = String "_" s.
Proof.
  intros Hs Hne. unfold finish.
  rewrite bool_decide_eq_false_2 by done.
  rewrite bool_decide_eq_false_2 by (intros [= _ _]).
  done.
Qed.

Lemma finish_cases c :
  (finish c = "" ∧ (c = "" ∨ c = "code"))
  ∨ (c ≠ "" ∧ c ≠ "code"
     ∧ startsWith "xml" c || negb (starts_name c) = true
     ∧ finish c = String "_" c)
  ∨ (c ≠ "" ∧ c ≠ "code"
     ∧ startsWith "xml" c || negb (starts_name c) = false
     ∧ finish c = c).
Proof.
  unfold finish. destruct (decide (c = "")) as [->|Hne]; [left; auto|].
  destruct (decide (c = "code")) as [->|Hcode]; [left; auto|].
  rewrite !bool_decide_eq_false_2 by done. simpl.
  destruct (startsWith "xml" c || negb (starts_name c)); [right; left|right; right]; done.
Qed.

(** What the decision stage returns is left alone by a second run. *)
Lemma finish_fixed c b :
  every name_char c = true → spaced false c = true →
  (b = true → starts_underscore c = false ∧ ends_underscore c = false) →
  sanitize (finish c) b = finish c.
Proof.
  intros Hc Hs Hb.
  destruct (finish_cases c) as [[-> _]|[(Hne & Hcode & Hpre & ->)|(Hne & Hcode & Hpre & ->)]].
  - by destruct b.
  - assert (starts_underscore c = false) as Hstart by (by apply prefixed_start).
    rewrite sanitize_stages, cleaned_id.
    + destruct b; [|by apply finish_prefixed].
      destruct (Hb eq_refl) as [_ Hend].
      assert (trim_underscores (String "_" c) = c) as ->.
      { unfold trim_underscores. simpl.
        by rewrite drop_leading_id, drop_trailing_id. }
      destruct (finish_cases c) as [[_ [?|?]]|[(_ & _ & _ & ->)|(_ & _ & Hpre' & _)]];
        [done|done|done|congruence].
    + simpl. rewrite Hc. done.
    + simpl. by apply spaced_strengthen.
  - rewrite sanitize_stages, cleaned_id by done.
    assert ((if b then trim_underscores c else c) = c) as ->.
    { destruct b; [|done]. destruct (Hb eq_refl). by apply trimmed_id. }
    destruct (finish_cases c) as [[_ [?|?]]|[(_ & _ & Hpre' & _)|(_ & _ & _ & ->)]];
      [done|done|congruence|done].
Qed.

(** Sanitising for the final tag what the live sanitising left. *)
Lemma finish_then_trimmed c :
  every name_char c = true → spaced false c = true →
  sanitize (finish c) true = finish (trim_underscores c).
Proof.
  intros Hc Hs.
  destruct (finish_cases c) as [[-> [->| ->]]|[(Hne & Hcode & Hpre & ->)|(Hne & Hcode & Hpre & ->)]].
  - done.
  - done.
  - assert (starts_underscore c = false) as Hstart by (by apply prefixed_start).
    rewrite sanitize_stages, cleaned_id; [done| |].
    + simpl. by rewrite Hc.
    + simpl. by apply spaced_strengthen.
  - by rewrite sanitize_stages, cleaned_id.
Qed.

Lemma finish_spaced c :
  spaced false c = true → spaced false (finish c) = true.
Proof.
  intros Hs.
  destruct (finish_cases c) as [[-> _]|[(Hne & Hcode & Hpre & ->)|(Hne & Hcode & Hpre & ->)]];
    [done| |done].
  simpl. apply spaced_strengthen; [by apply prefixed_start|done].
Qed.

Lemma finish_tag_name c :
  every name_char c = true →
  finish c = "" ∨ (tag_name (finish c) ∧ finish c ≠ "code").
Proof.
  intros Hc.
  destruct (finish_cases c) as [[-> _]|[(Hne & Hcode & Hpre & ->)|(Hne & Hcode & Hpre & ->)]].
  - by left.
  - right. split; [|by intros [= _ _]]. split; [|done]. simpl. by rewrite Hc.
  - right. split; [|done]. apply orb_false_iff in Hpre as [Hx Hn].
    apply negb_false_iff in Hn. done.
Qed.

(** Property X13 (sanitising what was sanitised).  Sanitising a second
    time gives what one run gives, with the edges trimmed if either run
    trims them: the live sanitising of the input box does not change the
    tag that is inserted, and a sanitised tag is a fixed point. *)
Theorem sanitize_twice t b b' :
  sanitize (sanitize t b) b' = sanitize t (b || b').
Proof.
  rewrite (sanitize_stages t b). destruct (cleaned_shape t) as [Hc Hs].
  destruct b; simpl.
  - destruct (trimmed_shape (cleaned t) Hc Hs) as (? & ? & ? & ?).
    by apply finish_fixed.
  - destruct b'.
    + by apply finish_then_trimmed.
    + by apply finish_fixed.
Qed.

(** Property X14 (what the sanitiser returns).  The result is empty or a
    name: characters of [[a-z0-9_-]] only, beginning with a letter or an
    underscore, not beginning with "xml", and not "code"; no two
    underscores stand side by side.  The tag that [doInsert] uses, with
    its fall-back "code", is always a name. *)
Theorem sanitize_tag_name t b :
  (sanitize t b = "" ∨ (tag_name (sanitize t b) ∧ sanitize t b ≠ "code"))
  ∧ spaced false (sanitize t b) = true
  ∧ tag_name (xmlTag t).
Proof.
  assert (∀ b', sanitize t b' = "" ∨ (tag_name (sanitize t b') ∧ sanitize t b' ≠ "code"))
    as Hall.
  { intros b'. rewrite sanitize_stages. destruct (cleaned_shape t) as [Hc Hs].
    apply finish_tag_name. destruct b'; [|done].
    by destruct (trimmed_shape (cleaned t) Hc Hs) as (? & _). }
  split; [apply Hall|]. split.
  - rewrite sanitize_stages. destruct (cleaned_shape t) as [Hc Hs].
    apply finish_spaced. destruct b; [|done].
    by destruct (trimmed_shape (cleaned t) Hc Hs) as (_ & ? & _).
  - unfold xmlTag. case_bool_decide as He; [done|].
    destruct (Hall true) as [?|[? _]]; done.
Qed.

(** Property X15 (names are left alone).  A name other than "code"
    without two underscores side by side is returned as it is; when the
    edges are trimmed, provided it neither begins nor ends with an
    underscore. *)
Theorem sanitize_keeps_tag_name s b :
  tag_name s → spaced false s = true → s ≠ "code" →
  (b = true → starts_underscore s = false ∧ ends_underscore s = false) →
  sanitize s b = s.
Proof.
  intros (Hc & Hstart & Hxml) Hs Hcode Hb.
  rewrite sanitize_stages, cleaned_id by done.
  assert ((if b then trim_underscores s else s) = s) as ->.
  { destruct b; [|done]. destruct (Hb eq_refl). by apply trimmed_id. }
  destruct (finish_cases s) as [[_ [->|?]]|[(_ & _ & Hpre & _)|(_ & _ & _ & ->)]];
    [done|done| |done].
  by rewrite Hxml, Hstart in Hpre.
Qed.
End sanitize.

(** * The recent tags *)

Section recents.
Import XmlTagCreator.
Implicit Types (l old tags : list string) (t tag : string) (c : creator).

Lemma filter_is_tag tag l :
  filter (λ j : json, ¬ is_tag tag j) (JStr <$> l) = JStr <$> filter (λ s, s ≠ tag) l.
Proof.
  induction l as [|s l IH]; [done|]. rewrite fmap_cons, !filter_cons.
  rewrite IH. simpl. destruct (decide (s ≠ tag)) as [Hs|Hs]; case_decide as Hd; try done.
  - by apply bool_decide_unpack in Hd.
  - exfalso. apply Hs. intros ->. by apply Hd, bool_decide_pack.
Qed.

Lemma pushRecent_strings tag l st :
  tag ≠ "" →
  pushRecent tag (recents_of l st)
  = Ok (saveRecents (recents_of (take MAX_RECENTS (tag :: filter (λ s, s ≠ tag) l)) st)).
Proof.
  intros Hne. unfold pushRecent, recents_of. rewrite bool_decide_eq_false_2 by done.
  simpl. rewrite filter_is_tag. by rewrite <- fmap_cons, <- fmap_take.
Qed.

Lemma filter_absent tag l : tag ∉ l → filter (λ s, s ≠ tag) l = l.
Proof.
  intros H. apply filter_all. intros s Hs ->. done.
Qed.

Lemma take_filter_take n tag l :
  NoDup l →
  take n (filter (λ s, s ≠ tag) (take (S n) l)) = take n (filter (λ s, s ≠ tag) l).
Proof.
  revert n. induction l as [|x l IH]; intros n Hnd; [done|].
  apply NoDup_cons in Hnd as [Hx Hnd]. rewrite firstn_cons, !filter_cons.
  destruct (decide (x ≠ tag)) as [Hxt|Hxt].
  - destruct n as [|n]; [done|]. rewrite !firstn_cons. f_equal. by apply IH.
  - apply dec_stable in Hxt. subst x. rewrite (filter_absent tag l) by done.
    rewrite filter_absent.
    + by rewrite take_take, Nat.min_id.
    + intros Hin. apply Hx. by eapply subseteq_take.
Qed.

Lemma remove_dups_snoc l t :
  remove_dups (l ++ [t]) = filter (λ s, s ≠ t) (remove_dups l) ++ [t].
Proof.
  induction l as [|x l IH]; [done|]. rewrite <- app_comm_cons, !remove_dups_step.
  rewrite IH. destruct (decide (x = t)) as [->|Hxt].
  - rewrite decide_True by (apply elem_of_app; right; by apply list_elem_of_singleton).
    destruct (decide (t ∈ l)); [done|]. rewrite filter_cons, decide_False; [done|tauto].
  - destruct (decide (x ∈ l)) as [Hin|Hin].
    + rewrite decide_True; [done|]. apply elem_of_app. by left.
    + rewrite decide_False.
      * by rewrite filter_cons, decide_True.
      * intros [?|?%list_elem_of_singleton]%elem_of_app; done.
Qed.

Lemma most_recent_snoc l t :
  most_recent_first (l ++ [t]) = t :: filter (λ s, s ≠ t) (most_recent_first l).
Proof.
  unfold most_recent_first. by rewrite remove_dups_snoc, reverse_snoc, filter_reverse.
Qed.

Lemma most_recent_NoDup l : NoDup (most_recent_first l).
Proof.
  unfold most_recent_first. rewrite reverse_Permutation. apply NoDup_remove_dups.
Qed.

(** One more use: the stored list stays the first ten of the history. *)
Lemma push_history tag l st :
  tag ≠ "" →
  pushRecent tag (recents_of (take MAX_RECENTS (most_recent_first l)) st)
  = Ok (saveRecents
          (recents_of (take MAX_RECENTS (most_recent_first (l ++ [tag]))) st)).
Proof.
  intros Hne. rewrite pushRecent_strings by done. do 3 f_equal.
  rewrite most_recent_snoc. unfold MAX_RECENTS. rewrite !firstn_cons. f_equal.
  apply (take_filter_take 9), most_recent_NoDup.
Qed.

Lemma written_strings l : written (JArr (JStr <$> l)) = JArr (JStr <$> l).
Proof.
  change (written (JArr (JStr <$> l))) with (JArr (written <$> (JStr <$> l))).
  f_equal. induction l as [|x l IH]; [done|]. rewrite !fmap_cons. by rewrite IH.
Qed.

Lemma saveRecents_recents l st :
  saveRecents (recents_of l st)
  = recents_of l (<[STORAGE_KEY := Doc (JArr (JStr <$> l))]> st).
Proof.
  unfold saveRecents, recents_of, JSON_stringify_value. cbn [recent storage].
  by rewrite written_strings.
Qed.

Lemma pushes_history tags : ∀ l st,
  Forall (λ t, t ≠ "") tags →
  ∃ st', pushes tags (recents_of (take MAX_RECENTS (most_recent_first l)) st)
         = Ok (recents_of (take MAX_RECENTS (most_recent_first (l ++ tags))) st')
         ∧ (∀ k, k ≠ STORAGE_KEY → st' !! k = st !! k)
         ∧ (tags ≠ [] → loadRecents st' = JArr (JStr <$> take MAX_RECENTS (most_recent_first (l ++ tags)))).
Proof.
  induction tags as [|t tags IH]; intros l st Hall.
  - exists st. rewrite app_nil_r. done.
  - apply Forall_cons in Hall as [Ht Hall]. simpl.
    rewrite push_history by done. simpl. rewrite saveRecents_recents.
    destruct (IH (l ++ [t]) (<[STORAGE_KEY := Doc (JArr (JStr <$> take MAX_RECENTS (most_recent_first (l ++ [t]))))]> st) Hall)
      as (st' & Hp & Hk & Hload).
    exists st'. rewrite <- app_assoc in Hp, Hload. simpl in Hp, Hload.
    split; [done|]. split.
    + intros k Hne. rewrite Hk by done. by rewrite lookup_insert_ne.
    + intros _. destruct tags as [|t' tags]; [|by apply Hload].
      simpl in Hp. injection Hp as <-. unfold loadRecents.
      rewrite lookup_insert_eq. done.
Qed.

Lemma most_recent_old old :
  NoDup old → most_recent_first (reverse old) = old.
Proof.
  intros Hnd. unfold most_recent_first.
  rewrite remove_dups_NoDup by (by rewrite reverse_Permutation).
  apply reverse_involutive.
Qed.

(** Property X16 (the recent tags).  Starting from at most ten distinct
    recent tags and pushing tags that are not empty one after the other,
    the list holds the tags ever listed or pushed, each once at its last
    use, the most recent first, cut to the first ten; the other keys of
    the store are untouched. *)
Theorem recent_tags_are_the_last_ten old tags st c' :
  NoDup old → length old ≤ MAX_RECENTS → Forall (λ t, t ≠ "") tags →
  pushes tags (recents_of old st) = Ok c' →
  recent c' = JArr (JStr <$> take MAX_RECENTS (most_recent_first (reverse old ++ tags)))
  ∧ (∀ k, k ≠ STORAGE_KEY → storage c' !! k = st !! k).
Proof.
  intros Hnd Hlen Hall Hp.
  destruct (pushes_history tags (reverse old) st Hall) as (st' & Hp' & Hk & _).
  rewrite most_recent_old, take_ge in Hp' by done.
  rewrite Hp in Hp'. injection Hp' as ->. done.
Qed.

(** Property X17 (the store follows a list of strings).  Let the list of
    recent tags hold strings only.  After a push of a tag that is not
    empty the list still holds strings only, and a creator booted from the
    store has the very list of the running one; the same after a press on
    Clear, for any list, and the list is then empty. *)
Theorem recent_tags_reload tag l st c c' :
  tag ≠ "" → pushRecent tag (recents_of l st) = Ok c' →
  boot (storage c') = c'
  ∧ (∃ l', recent c' = JArr (JStr <$> l'))
  ∧ boot (storage (clearRecents c)) = clearRecents c
  ∧ recent (clearRecents c) = JArr [].
Proof.
  intros Hne Hp. rewrite pushRecent_strings, saveRecents_recents in Hp by done.
  injection Hp as <-. split; [|split; [by eexists|]].
  - unfold boot, loadRecents, recents_of. simpl. rewrite lookup_insert_eq. simpl.
    by destruct (take MAX_RECENTS (tag :: filter (λ s, s ≠ tag) l)).
  - unfold boot, loadRecents, clearRecents, saveRecents. simpl.
    by rewrite !lookup_insert_eq.
Qed.

(** A list that holds a number beyond the binary64 range is not what a
    reload gives: the number comes back as [null]. *)
Example recent_tags_number_reload :
  match pushRecent "a" (Creator (JArr [JNum (inject_Z (10 ^ 400))]) ∅) with
  | Ok c' =>
      recent c' = JArr [JStr "a"; JNum (inject_Z (10 ^ 400))]
      ∧ loadRecents (storage c') = JArr [JStr "a"; JNull]
  | Raise _ => False
  end.
Proof. vm_compute. done. Qed.

(** Property X18 (a store that is not an array).  Let a creator boot from
    a store and push a tag that is not empty.  The push throws exactly
    when the stored item denotes a value that is neither null nor an
    array, and then a TypeError; with no item, with an item that is not
    JSON and with a stored null, the list after the push is the pushed tag
    alone. *)
Theorem recent_tags_bad_store tag st :
  tag ≠ "" →
  (pushRecent tag (boot st) = Raise TypeError
   ↔ ∃ v, st !! STORAGE_KEY = Some (Doc v) ∧ v ≠ JNull ∧ ∀ items, v ≠ JArr items)
  ∧ (∀ e, pushRecent tag (boot st) = Raise e → e = TypeError)
  ∧ (st !! STORAGE_KEY ∈ [None; Some Blank; Some Garbled; Some (Doc JNull)] →
     ∃ c', pushRecent tag (boot st) = Ok c' ∧ recent c' = JArr [JStr tag]).
Proof.
  intros Hne. unfold pushRecent, boot, loadRecents, parse_item.
  rewrite bool_decide_eq_false_2 by done. simpl.
  destruct (st !! STORAGE_KEY) as [[| |v]|] eqn:Hst; simpl.
  - split; [split; [done|by intros (v & [=] & _)]|]. split; [done|]. eauto.
  - split; [split; [done|by intros (v & [=] & _)]|]. split; [done|]. eauto.
  - split; [|split].
    + destruct v; simpl; split; try done.
      * by intros (v & [= <-] & ? & _).
      * intros _. eexists. split; [done|]. split; [done|]. done.
      * intros _. eexists. split; [done|]. split; [done|]. done.
      * intros _. eexists. split; [done|]. split; [done|]. done.
      * intros (v & [= <-] & _ & Harr). by destruct (Harr items).
      * intros _. eexists. split; [done|]. split; [done|]. done.
    + intros e. destruct v; simpl; intros [=]; done.
    + intros Hin. repeat (apply elem_of_cons in Hin as [Hin|Hin]; try done).
      * injection Hin as [= ->]. eauto.
      * by apply elem_of_nil in Hin.
  - split; [split; [done|by intros (v & [=] & _)]|]. split; [done|]. eauto.
Qed.
End recents.

(** * The toolbar button *)

Section toolbar.
Import XmlTagCreator.
Implicit Types (kids l : list node) (n v : node) (i : nat) (id : string).

Lemma querySelector_direct id l1 v l2 i :
  querySelector id l1 i = None → matches id v = true →
  querySelector id (l1 ++ v :: l2) i = Some (Child (i + length l1)).
Proof.
  revert i. induction l1 as [|k l1 IH]; intros i Hnone Hv; simpl in *.
  - rewrite Hv. do 2 f_equal. lia.
  - destruct (matches id k); [done|]. destruct (inner id k); [done|].
    rewrite IH by done. do 2 f_equal. lia.
Qed.

Lemma querySelector_finds id l1 v l2 i :
  matches id v = true → is_Some (querySelector id (l1 ++ v :: l2) i).
Proof.
  intros Hv. revert i. induction l1 as [|k l1 IH]; intros i; simpl.
  - by rewrite Hv.
  - destruct (matches id k); [done|]. destruct (inner id k); [done|]. apply IH.
Qed.

Lemma querySelector_app_none id l1 l2 i :
  querySelector id (l1 ++ l2) i = None →
  querySelector id l1 i = None ∧ querySelector id l2 (i + length l1) = None.
Proof.
  revert i. induction l1 as [|k l1 IH]; intros i; simpl.
  - intros H. split; [done|]. by rewrite Nat.add_0_r.
  - destruct (matches id k); [done|]. destruct (inner id k); [done|].
    intros H. apply IH in H as [H1 H2]. split; [done|].
    by replace (i + S (length l1)) with (S i + length l1) by lia.
Qed.

Lemma insertBefore_splits ref kids kids' :
  insertBefore btn ref kids = Returned kids' →
  ∃ l1 l2, kids = l1 ++ l2 ∧ kids' = l1 ++ btn :: l2.
Proof.
  destruct ref as [|i|]; simpl; intros [= <-].
  - exists kids, []. by rewrite app_nil_r.
  - exists (take i kids), (drop i kids). by rewrite take_drop.
Qed.

(** Property X19 (one button).  When [addToolbarBtn] returns on a toolbar,
    the toolbar then holds an insert button and a second run changes
    nothing; the run has either left the toolbar as it was, or added the
    button among its children, which keep their order, to a toolbar that
    held none. *)
Theorem toolbar_button_once bar bar' :
  addToolbarBtn (Some bar) = Returned (Some bar') →
  addToolbarBtn (Some bar') = Returned (Some bar')
  ∧ is_Some (querySelector insertBtn (childNodes_of bar') 0)
  ∧ (bar' = bar
     ∨ ∃ e l1 l2, bar = Node e (l1 ++ l2) ∧ bar' = Node e (l1 ++ btn :: l2)
                   ∧ querySelector insertBtn (l1 ++ l2) 0 = None).
Proof.
  destruct bar as [e kids]. unfold addToolbarBtn.
  case_bool_decide as Hhas.
  - intros [= <-]. rewrite bool_decide_eq_true_2 by done. simpl. auto.
  - destruct (insertBefore btn _ kids) as [kids'|] eqn:Hins; [|done].
    intros [= <-]. apply insertBefore_splits in Hins as (l1 & l2 & -> & ->).
    assert (is_Some (querySelector insertBtn (l1 ++ btn :: l2) 0)) as Hnow
      by (by apply querySelector_finds).
    rewrite bool_decide_eq_true_2 by done. split; [done|]. split; [done|].
    right. exists e, l1, l2. split; [done|]. split; [done|].
    by apply eq_None_not_Some.
Qed.

(** Property X20 (the place of the button).  When the first voice button
    in document order is a child of the toolbar and the toolbar holds no
    insert button, the button becomes the next sibling of that voice
    button. *)
Theorem toolbar_button_follows_voice (e : option string) l1 v l2 :
  querySelector voiceBtn l1 0 = None → matches voiceBtn v = true →
  querySelector insertBtn (l1 ++ v :: l2) 0 = None →
  addToolbarBtn (Some (Node e (l1 ++ v :: l2)))
  = Returned (Some (Node e (l1 ++ v :: btn :: l2))).
Proof.
  intros Hl1 Hv Hnone. unfold addToolbarBtn.
  rewrite bool_decide_eq_false_2 by (rewrite Hnone; by intros [? ?]).
  rewrite (querySelector_direct voiceBtn l1 v l2 0) by done. simpl.
  rewrite length_app.
  destruct l2 as [|x l2]; cbn [length].
  - rewrite decide_False by lia. simpl. by rewrite <- app_assoc.
  - rewrite decide_True by lia. simpl. do 2 f_equal.
    rewrite (cons_middle v l1 (x :: l2)), app_assoc.
    rewrite take_app_length', drop_app_length' by (rewrite length_app; simpl; lia).
    by rewrite <- app_assoc.
Qed.
End toolbar.

(** * Instances on sample inputs *)

Lemma drag_moves_one_row_witness :
  NoDup (children three_rows) ∧ placeholders three_rows = [] ∧ 0 ∈ rows three_rows
  ∧ (next three_rows ∉ children three_rows)
  ∧ ∃ p', drag_and_drop grab (row_box 0) 0 [(Pointer 10 60, three_view)] three_rows = Ok p'
      ∧ detach 0 (children p') = detach 0 (children three_rows)
      ∧ placeholders p' = [].
Proof.
  assert (NoDup (children three_rows)) as H0 by compute_done.
  assert (placeholders three_rows = []) as H1 by compute_done.
  assert (0 ∈ rows three_rows) as H2 by compute_done.
  assert (next three_rows ∉ children three_rows) as H3 by compute_done.
  split; [exact H0|]. split; [exact H1|]. split; [exact H2|]. split; [exact H3|].
  destruct (drag_moves_one_row grab (row_box 0) 0 [(Pointer 10 60, three_view)]
              three_rows H0 H1 H2 H3) as (p' & Hd & Hdet & _ & Hph & _).
  exists p'. split; [exact Hd|]. split; [exact Hdet|exact Hph].
Defined.

Lemma drop_persists_order_witness :
  drag dragging_A = Some session_A
  ∧ ∃ p', Sorter.up dragging_A = Ok p'
      ∧ Store.get CONFIG.STORAGE_KEY (localStorage p') = Ok (JArr (JStr <$> Sorter.order p')).
Proof.
  assert (drag dragging_A = Some session_A) as H1 by compute_done.
  split; [exact H1|].
  destruct (drop_persists_order dragging_A session_A H1) as (p' & Hup & Hget & _).
  exists p'. split; [exact Hup|exact Hget].
Defined.

Lemma click_keeps_order_witness :
  NoDup (children three_rows) ∧ placeholders three_rows = [] ∧ 0 ∈ rows three_rows
  ∧ (next three_rows ∉ children three_rows)
  ∧ ∃ x, row_at three_rows 0 = Some x
  ∧ ∃ p', drag_and_drop grab (row_box 0) 0 [] three_rows = Ok p'
      ∧ children p' = children three_rows
      ∧ inline <$> row_at p' 0
        = Some (Style unset unset (integer 999) unset unset unset).
Proof.
  assert (NoDup (children three_rows)) as H0 by compute_done.
  assert (placeholders three_rows = []) as H1 by compute_done.
  assert (0 ∈ rows three_rows) as H2 by compute_done.
  assert (next three_rows ∉ children three_rows) as H3 by compute_done.
  assert (∃ x, row_at three_rows 0 = Some x) as [x H4].
  { eexists. vm_compute. reflexivity. }
  split; [exact H0|]. split; [exact H1|]. split; [exact H2|]. split; [exact H3|].
  exists x. split; [exact H4|].
  destruct (click_keeps_order grab (row_box 0) 0 three_rows x H0 H1 H2 H3 H4)
    as (p' & Hd & Hch & _ & Hrow & _).
  exists p'. split; [exact Hd|]. split; [exact Hch|]. by rewrite Hrow.
Defined.

Lemma drop_takes_placeholder_place_witness :
  drag dragging_A = Some session_A ∧ drag_row session_A ≠ drag_ph session_A
  ∧ children dragging_A = [] ++ drag_ph session_A :: [0; 1; 2]
  ∧ NoDup (children dragging_A)
  ∧ ∃ p', Sorter.up dragging_A = Ok p' ∧ children p' = [0; 1; 2].
Proof.
  assert (drag dragging_A = Some session_A) as H1 by compute_done.
  assert (drag_row session_A ≠ drag_ph session_A) as H2 by compute_done.
  assert (children dragging_A = [] ++ drag_ph session_A :: [0; 1; 2]) as H3 by compute_done.
  assert (NoDup (children dragging_A)) as H4 by compute_done.
  split; [exact H1|]. split; [exact H2|]. split; [exact H3|]. split; [exact H4|].
  destruct (drop_takes_placeholder_place dragging_A session_A [] [0; 1; 2] H1 H2 H3 H4)
    as (p' & Hup & Hch).
  exists p'. split; [exact Hup|]. rewrite Hch. compute_done.
Defined.

Lemma second_pointer_down_strands_placeholder_witness :
  in_session session_A dragging_A ∧ 1 ∈ rows dragging_A
  ∧ (next dragging_A ∉ children dragging_A)
  ∧ length (placeholders (Sorter.down grab (row_box 1) 1 dragging_A)) = 2.
Proof.
  assert (in_session session_A dragging_A) as H1 by (repeat split; compute_done).
  assert (1 ∈ rows dragging_A) as H2 by compute_done.
  assert (next dragging_A ∉ children dragging_A) as H3 by compute_done.
  split; [exact H1|]. split; [exact H2|]. split; [exact H3|].
  exact (proj1 (second_pointer_down_strands_placeholder grab (row_box 1) 1
                  dragging_A session_A H1 H2 H3)).
Defined.

Lemma restore_moves_only_named_rows_witness :
  ∃ p', Sorter.applySaved page_XA = Ok p'
    ∧ heap p' = heap page_XA ∧ localStorage p' = localStorage page_XA.
Proof.
  assert (∃ p', Sorter.applySaved page_XA = Ok p') as [p' H1].
  { eexists. vm_compute. reflexivity. }
  exists p'. split; [exact H1|].
  destruct (restore_moves_only_named_rows page_XA p' H1) as (T & _ & _ & Hh & Hs & _).
  split; [exact Hh|exact Hs].
Defined.

Lemma restore_twice_witness :
  unique_names page_XA
  ∧ ∃ p', Sorter.applySaved page_XA = Ok p' ∧ Sorter.applySaved p' = Ok p'.
Proof.
  assert (unique_names page_XA) as H1 by (apply unique_names_NoDup; compute_done).
  split; [exact H1|].
  assert (∃ p', Sorter.applySaved page_XA = Ok p') as [p' H2].
  { eexists. vm_compute. reflexivity. }
  exists p'. split; [exact H2|]. exact (restore_twice page_XA p' H1 H2).
Defined.

Lemma saved_order_restores_witness :
  NoDup (names two_rows) ∧ (∀ o, o ∈ names two_rows → truthy_name o)
  ∧ names page_BA ≡ₚ names two_rows
  ∧ ∃ q', Sorter.applySaved
            (with_localStorage (localStorage (Sorter.save two_rows)) page_BA) = Ok q'
      ∧ names q' = [Some "A"; Some "B"].
Proof.
  assert (NoDup (names two_rows)) as H1 by compute_done.
  assert (∀ o, o ∈ names two_rows → truthy_name o) as H2.
  { intros o Ho. change (names two_rows) with [Some "A"; Some "B"] in Ho.
    apply elem_of_cons in Ho as [->|Ho]; [done|].
    apply elem_of_cons in Ho as [->|Ho]; [done|]. by apply elem_of_nil in Ho. }
  assert (names page_BA ≡ₚ names two_rows) as H3 by (vm_compute; apply perm_swap).
  split; [exact H1|]. split; [exact H2|]. split; [exact H3|].
  destruct (saved_order_restores two_rows
              (with_localStorage (localStorage (Sorter.save two_rows)) page_BA)
              H1 H2 H3 eq_refl) as (q' & Hq & Hn).
  exists q'. split; [exact Hq|]. rewrite Hn. compute_done.
Defined.

Lemma recent_tags_are_the_last_ten_witness :
  NoDup ["a"; "b"] ∧ length ["a"; "b"] ≤ XmlTagCreator.MAX_RECENTS
  ∧ Forall (λ t, t ≠ "") ["c"; "a"]
  ∧ ∃ c', pushes ["c"; "a"] (recents_of ["a"; "b"] ∅) = Ok c'
      ∧ XmlTagCreator.recent c' = JArr [JStr "a"; JStr "c"; JStr "b"].
Proof.
  assert (NoDup ["a"; "b"]) as H1 by compute_done.
  assert (length ["a"; "b"] ≤ XmlTagCreator.MAX_RECENTS) as H2 by compute_done.
  assert (Forall (λ t, t ≠ "") ["c"; "a"]) as H3 by compute_done.
  split; [exact H1|]. split; [exact H2|]. split; [exact H3|].
  assert (∃ c', pushes ["c"; "a"] (recents_of ["a"; "b"] ∅) = Ok c') as [c' H4].
  { eexists. vm_compute. reflexivity. }
  exists c'. split; [exact H4|].
  rewrite (proj1 (recent_tags_are_the_last_ten ["a"; "b"] ["c"; "a"] ∅ c' H1 H2 H3 H4)).
  compute_done.
Defined.

Lemma recent_tags_reload_witness :
  "a" ≠ ""
  ∧ ∃ c', XmlTagCreator.pushRecent "a" (recents_of ["b"; "a"] ∅) = Ok c'
      ∧ XmlTagCreator.boot (XmlTagCreator.storage c') = c'
      ∧ XmlTagCreator.recent c' = JArr [JStr "a"; JStr "b"].
Proof.
  assert ("a" ≠ "") as H1 by compute_done.
  split; [exact H1|].
  assert (∃ c', XmlTagCreator.pushRecent "a" (recents_of ["b"; "a"] ∅) = Ok c')
    as [c' H2].
  { eexists. vm_compute. reflexivity. }
  exists c'. split; [exact H2|]. split.
  - exact (proj1 (recent_tags_reload "a" ["b"; "a"] ∅ c' c' H1 H2)).
  - vm_compute in H2. injection H2 as <-. reflexivity.
Defined.

Lemma recent_tags_bad_store_witness :
  "a" ≠ ""
  ∧ ∀ e, XmlTagCreator.pushRecent "a"
           (XmlTagCreator.boot {[ XmlTagCreator.STORAGE_KEY := Doc (JStr "a") ]})
         = Raise e → e = TypeError.
Proof.
  assert ("a" ≠ "") as H1 by compute_done.
  split; [exact H1|].
  exact (proj1 (proj2 (recent_tags_bad_store "a"
                         {[ XmlTagCreator.STORAGE_KEY := Doc (JStr "a") ]} H1))).
Defined.

Lemma toolbar_button_once_witness :
  ∃ bar', XmlTagCreator.addToolbarBtn (Some (XmlTagCreator.Node None [voice_node]))
          = XmlTagCreator.Returned (Some bar')
    ∧ XmlTagCreator.addToolbarBtn (Some bar') = XmlTagCreator.Returned (Some bar').
Proof.
  assert (∃ bar', XmlTagCreator.addToolbarBtn (Some (XmlTagCreator.Node None [voice_node]))
                  = XmlTagCreator.Returned (Some bar')) as [bar' H1].
  { eexists. vm_compute. reflexivity. }
  exists bar'. split; [exact H1|].
  exact (proj1 (toolbar_button_once (XmlTagCreator.Node None [voice_node]) bar' H1)).
Defined.

Lemma toolbar_button_follows_voice_witness :
  XmlTagCreator.querySelector XmlTagCreator.voiceBtn [XmlTagCreator.text_node] 0 = None
  ∧ XmlTagCreator.matches XmlTagCreator.voiceBtn voice_node = true
  ∧ XmlTagCreator.querySelector XmlTagCreator.insertBtn
      ([XmlTagCreator.text_node] ++ voice_node :: [XmlTagCreator.text_node]) 0 = None
  ∧ XmlTagCreator.addToolbarBtn
      (Some (XmlTagCreator.Node None
               ([XmlTagCreator.text_node] ++ voice_node :: [XmlTagCreator.text_node])))
    = XmlTagCreator.Returned
        (Some (XmlTagCreator.Node None
                 ([XmlTagCreator.text_node] ++ voice_node
                    :: XmlTagCreator.btn :: [XmlTagCreator.text_node]))).
Proof.
  assert (XmlTagCreator.querySelector XmlTagCreator.voiceBtn [XmlTagCreator.text_node] 0
          = None) as H1 by compute_done.
  assert (XmlTagCreator.matches XmlTagCreator.voiceBtn voice_node = true) as H2
    by compute_done.
  assert (XmlTagCreator.querySelector XmlTagCreator.insertBtn
            ([XmlTagCreator.text_node] ++ voice_node :: [XmlTagCreator.text_node]) 0
          = None) as H3 by compute_done.
  split; [exact H1|]. split; [exact H2|]. split; [exact H3|].
  exact (toolbar_button_follows_voice None [XmlTagCreator.text_node] voice_node
           [XmlTagCreator.text_node] H1 H2 H3).
Defined.

Lemma sanitize_keeps_tag_name_witness :
  tag_name "my-tag" ∧ spaced false "my-tag" = true ∧ "my-tag" ≠ "code"
  ∧ XmlTagCreator.sanitize "my-tag" true = "my-tag".
Proof.
  assert (tag_name "my-tag") as H1 by (repeat split; compute_done).
  assert (spaced false "my-tag" = true) as H2 by compute_done.
  assert ("my-tag" ≠ "code") as H3 by compute_done.
  split; [exact H1|]. split; [exact H2|]. split; [exact H3|].
  apply (sanitize_keeps_tag_name "my-tag" true H1 H2 H3).
  intros _. split; compute_done.
Defined.
